(** * Verification of the DynamoDB batch-write helper

    Shallow embedding of [batchWriteItem] and [convertErrorObject] from
    [clients-and-utilities/ts/ddb.ts] (and of the variant of [batchWriteItem]
    in [clients-and-utilities/js/ddb.js]), together with the part of
    ramda's [splitEvery] that they call. *)

From Equations Require Import Equations.
From Stdlib Require Import String DecimalString DecimalNat.
From Stdlib Require Import ZArith Bool Arith Lia List.
Import ListNotations.

Open Scope string_scope.
Open Scope list_scope.
Open Scope nat_scope.

(** ** JavaScript values

    The data that flows through the helper: items, write operations,
    commands, responses, thrown errors and log records.  Objects are
    association lists in property order; a run-time object holds at most one
    entry per key, and a read returns the first one. Numbers are the
    integer-valued ones and NaN. *)

#[local] Set Warnings "-register-all".

Inductive value : Type :=
| VUndefined
| VNull
| VBool (b : bool)
| VNum (z : Z)
| VNaN
| VStr (s : string)
| VArr (xs : list value)
| VObj (fields : list (string * value)).

Module JS.

(** [ToBoolean]: the falsy values are undefined, null, false, 0, NaN
    and the empty string. *)
Definition truthy (v : value) : bool :=
  match v with
  | VUndefined | VNull | VNaN => false
  | VBool b => b
  | VNum z => negb (Z.eqb z 0)
  | VStr s => negb (String.eqb s "")
  | VArr _ | VObj _ => true
  end.

Fixpoint lookup (k : string) (fields : list (string * value)) : value :=
  match fields with
  | [] => VUndefined
  | (k', v) :: rest => if String.eqb k' k then v else lookup k rest
  end.

(** [v.k] for the property names the helper reads ([name], [stack],
    [message]) and writes: a primitive or an array has none of them.
    Reading a property of undefined or null throws in JavaScript; every
    read below sits behind a truthiness guard of the receiver. *)
Definition get (v : value) (k : string) : value :=
  match v with
  | VObj fields => lookup k fields
  | _ => VUndefined
  end.

(** [a || b] *)
Definition or (a b : value) : value := if truthy a then a else b.

(** [v === s] for a string literal [s] *)
Definition strict_eq_str (v : value) (s : string) : bool :=
  match v with
  | VStr t => String.eqb t s
  | _ => false
  end.

(** [Array.prototype.slice(from, to)] for [0 <= from <= to] *)
Definition slice {A} (from to : nat) (l : list A) : list A :=
  firstn (to - from) (skipn from l).

(** Number-to-string conversion of a non-negative integer. *)
Definition string_of_nat (n : nat) : string :=
  NilEmpty.string_of_uint (Nat.to_uint n).

End JS.

(** ** [convertErrorObject] *)

Record ConvertErrorObject := {
  logger : value;
  response : value
}.

Definition convertErrorObject (errorObject : value) : ConvertErrorObject :=
  if JS.truthy errorObject
     && JS.truthy (JS.get errorObject "name")
     && JS.truthy (JS.get errorObject "stack")
     && JS.truthy (JS.get errorObject "message")
  then
    let loggerError :=
      VObj [ ("name", JS.get errorObject "name");
             ("message", JS.get errorObject "message");
             ("stack", JS.or (JS.get errorObject "stack")
                             (VStr "No stack provided")) ] in
    let responseError :=
      VObj [ ("name", JS.get errorObject "name");
             ("message", JS.get errorObject "message") ] in
    {| logger := loggerError; response := responseError |}
  else
    {| logger := errorObject; response := errorObject |}.

(** ** ramda's [splitEvery]

    The library function that [batchWriteItem] imports, after its source:
    [while (idx < list.length) result.push(slice(idx, idx += n, list))],
    the pushes written as a list built front to back.  ramda throws when
    [n <= 0]; the chunk size is a [positive] here, and [batchWriteItem]
    passes the literal 25. *)

Section SplitEvery.
Context {A : Type}.

Equations? splitEvery_loop (n : positive) (xs : list A) (idx : nat)
  : list (list A) by wf (length xs - idx) lt :=
  splitEvery_loop n xs idx with lt_dec idx (length xs) := {
    | left _ =>
        JS.slice idx (idx + Pos.to_nat n) xs
          :: splitEvery_loop n xs (idx + Pos.to_nat n)
    | right _ => [] }.
Proof. pose proof (Pos2Nat.is_pos n). lia. Qed.

Definition splitEvery (n : positive) (xs : list A) : list (list A) :=
  splitEvery_loop n xs 0.

End SplitEvery.

(** ** Write operations, commands and log records *)

Definition PutRequest (item : value) : value :=
  VObj [ ("PutRequest", VObj [ ("Item", item) ]) ].

Definition DeleteRequest (item : value) : value :=
  VObj [ ("DeleteRequest", VObj [ ("Key", item) ]) ].

(** [items.forEach((item) => { processedItems.push(f(item)) })] *)
Definition forEach_push (f : value -> value) (items processedItems : list value)
  : list value :=
  fold_left (fun acc item => acc ++ [f item]) items processedItems.

Definition processItems (action : value) (items : list value) : list value :=
  if JS.strict_eq_str action "put"
  then forEach_push PutRequest items []
  else forEach_push DeleteRequest items [].

Definition processedItemBatches (action : value) (items : list value)
  : list (list value) :=
  splitEvery 25 (processItems action items).

(** [new BatchWriteCommand({ RequestItems: { [tableName]: batch } })] *)
Definition BatchWriteCommand (tableName : string) (batch : list value) : value :=
  VObj [ ("RequestItems", VObj [ (tableName, VArr batch) ]) ].

(** [i + "out of " + batchCount] *)
Definition batch_number (i batchCount : nat) : string :=
  (JS.string_of_nat i ++ "out of " ++ JS.string_of_nat batchCount)%string.

Definition complete_log (i batchCount : nat) (res : value) (batch : list value)
  : value :=
  VObj [ ("message", VStr "Complete batchWrite");
         ("batch_number", VStr (batch_number i batchCount));
         ("command_response", res);
         ("input", VArr batch) ].

Definition fail_log (action : value) (items : list value) (e : value) : value :=
  VObj [ ("message", VStr "Fail to batchWriteItem");
         ("action", action);
         ("items", VArr items);
         ("error", logger (convertErrorObject e)) ].

(** ** The call as a transition system

    What a call does that can be observed from outside, in order of
    occurrence: the requests handed to the document client and the records
    printed with [console.log(JSON.stringify(record, null, 2))] (the event
    carries the record; its rendering as text is not modelled). *)

Inductive Event : Type :=
| Send (command : value)
| ConsoleLog (record : value).

(** Settlement of the promise that [batchWriteItem] returns. *)
Inductive Outcome : Type :=
| Resolved
| Rejected (e : value).

(** The external store: its reply to the request of the batch with index
    [i] carrying [command], a response ([inl]) or an error ([inr]). *)
Definition Store := nat -> value -> value + value.

(** State of one call once the synchronous part has run.  [in_flight] are
    the callbacks of [processedItemBatches.map] suspended at
    [await ddbDocClient.send(command)], each with its [i] and [batch];
    [unfulfilled] is the countdown of [Promise.all]. *)
Record Call : Type := {
  in_flight : list (nat * list value);
  unfulfilled : nat;
  outcome : option Outcome;
  events : list Event
}.

Definition indexed {A} (l : list A) : list (nat * A) :=
  combine (seq 0 (length l)) l.

(** The callbacks still suspended once the one of index [i] has resumed. *)
Definition without {B} (i : nat) (l : list (nat * B)) : list (nat * B) :=
  filter (fun p => negb (fst p =? i)) l.

Section BatchWrite.
Variable store : Store.
Variable tableName : string.
Variable batchCount : nat.
(** What runs when [await Promise.all(batchRequests)] throws [e]: the
    [catch] block of the TypeScript source, nothing in the JavaScript
    one.  The error itself is thrown on to the caller in both. *)
Variable on_reject : value -> list Event.

(** Every callback runs up to its [await], so all requests are sent, in
    batch order, before any reply is handled.  [Promise.all] of no
    promise is fulfilled at once. *)
Definition dispatch (batches : list (list value)) : Call :=
  {| in_flight := indexed batches;
     unfulfilled := length batches;
     outcome := if length batches =? 0 then Some Resolved else None;
     events := map (fun batch => Send (BatchWriteCommand tableName batch))
                   batches |}.

(** The reply to request [i] arrives and the event loop runs what it
    wakes up: the rest of callback [i] and, if that settles
    [Promise.all], the rest of [batchWriteItem].  A fulfilled request
    logs and counts down; a rejected one rejects [Promise.all] unless it
    is settled already.  An index with no request in flight wakes up
    nothing. *)
Definition complete (c : Call) (i : nat) : Call :=
  match find (fun p => fst p =? i) (in_flight c) with
  | None => c
  | Some (_, batch) =>
      let rest := without i (in_flight c) in
      match store i (BatchWriteCommand tableName batch) with
      | inl res =>
          let remaining := unfulfilled c - 1 in
          {| in_flight := rest;
             unfulfilled := remaining;
             outcome := match outcome c with
                        | None => if remaining =? 0 then Some Resolved else None
                        | Some o => Some o
                        end;
             events := events c
                       ++ [ConsoleLog (complete_log i batchCount res batch)] |}
      | inr e =>
          match outcome c with
          | None =>
              {| in_flight := rest;
                 unfulfilled := unfulfilled c;
                 outcome := Some (Rejected e);
                 events := events c ++ on_reject e |}
          | Some o =>
              {| in_flight := rest;
                 unfulfilled := unfulfilled c;
                 outcome := Some o;
                 events := events c |}
          end
      end
  end.

Definition run (batches : list (list value)) (schedule : list nat) : Call :=
  fold_left complete schedule (dispatch batches).

End BatchWrite.

(** The [catch (e)] block of [ts/ddb.ts]: log, then [throw e]. *)
Definition ts_catch (action : value) (items : list value) (e : value)
  : list Event :=
  [ConsoleLog (fail_log action items e)].

(** [js/ddb.js] has no [try]/[catch]: the rejection passes through. *)
Definition js_catch (e : value) : list Event := [].

(** [batchWriteItem] of [ts/ddb.ts].  [schedule] is the order in which the
    replies of the store arrive, by batch index; the state returned is the
    one reached when they have been handled, one reply at a time as the
    event loop does.  A prefix of a schedule is a schedule, so a property
    of all schedules holds at every moment of a call. *)
Definition batchWriteItem (store : Store) (tableName : string) (action : value)
  (items : list value) (schedule : list nat) : Call :=
  let processedItemBatches := processedItemBatches action items in
  let batchCount := length processedItemBatches in
  run store tableName batchCount (ts_catch action items)
      processedItemBatches schedule.

(** [batchWriteItem] of [js/ddb.js]: the same body without [try]/[catch]. *)
Definition batchWriteItem_js (store : Store) (tableName : string)
  (action : value) (items : list value) (schedule : list nat) : Call :=
  let processedItemBatches := processedItemBatches action items in
  let batchCount := length processedItemBatches in
  run store tableName batchCount js_catch processedItemBatches schedule.

Definition sends (evs : list Event) : list value :=
  flat_map (fun ev => match ev with Send c => [c] | ConsoleLog _ => [] end) evs.

Definition logs (evs : list Event) : list value :=
  flat_map (fun ev => match ev with Send _ => [] | ConsoleLog r => [r] end) evs.

Definition ceil_div (a b : nat) : nat := (a + b - 1) / b.

(** The record carries [s] as its [batch_number]. *)
Definition has_batch_number (s : string) (r : value) : bool :=
  match JS.get r "batch_number" with
  | VStr t => String.eqb t s
  | _ => false
  end.

(** The record is one of the [catch] block of [batchWriteItem]. *)
Definition is_fail_log (r : value) : bool :=
  match JS.get r "message" with
  | VStr t => String.eqb t "Fail to batchWriteItem"
  | _ => false
  end.

(** Structural equality of values, and occurrence of a value inside
    another one at any depth. *)
Fixpoint value_eqb (a b : value) {struct a} : bool :=
  match a, b with
  | VUndefined, VUndefined | VNull, VNull | VNaN, VNaN => true
  | VBool x, VBool y => Bool.eqb x y
  | VNum x, VNum y => Z.eqb x y
  | VStr x, VStr y => String.eqb x y
  | VArr xs, VArr ys =>
      (fix all2 (xs ys : list value) : bool :=
         match xs, ys with
         | [], [] => true
         | x :: xs', y :: ys' => value_eqb x y && all2 xs' ys'
         | _, _ => false
         end) xs ys
  | VObj fs, VObj gs =>
      (fix all2 (fs gs : list (string * value)) : bool :=
         match fs, gs with
         | [], [] => true
         | (k, x) :: fs', (k', y) :: gs' =>
             String.eqb k k' && value_eqb x y && all2 fs' gs'
         | _, _ => false
         end) fs gs
  | _, _ => false
  end.

Fixpoint mentions (v r : value) {struct r} : bool :=
  value_eqb r v ||
  match r with
  | VArr xs => existsb (mentions v) xs
  | VObj fields => existsb (fun p => mentions v (snd p)) fields
  | _ => false
  end.

(** A request failed: the store answered batch [i] with the error [e]. *)
Definition failed (store : Store) (tableName : string)
  (batches : list (list value)) (i : nat) (e : value) : Prop :=
  exists batch, nth_error batches i = Some batch /\
                store i (BatchWriteCommand tableName batch) = inr e.

(** What the caller of a call in state [c] can rely on, [schedule] being
    the replies that have arrived: every batch has been sent once, failed
    or not; the call is fulfilled only when every request has been replied
    to and none has failed, and it is fulfilled then; a failed request
    rejects the call with the error of a failed request, its own when it
    is the only one. *)
Definition joins_all (store : Store) (tableName : string)
  (batches : list (list value)) (schedule : list nat) (c : Call) : Prop :=
  sends (events c) = map (BatchWriteCommand tableName) batches /\
  (outcome c = Some Resolved ->
   in_flight c = [] /\
   (forall i, i < length batches -> In i schedule) /\
   (forall i e, ~ failed store tableName batches i e)) /\
  ((forall i, i < length batches -> In i schedule) ->
   (forall i e, ~ failed store tableName batches i e) ->
   outcome c = Some Resolved) /\
  (forall i e, In i schedule -> failed store tableName batches i e ->
   exists e', outcome c = Some (Rejected e') /\
              exists k, In k schedule /\ failed store tableName batches k e') /\
  (forall i e, In i schedule -> failed store tableName batches i e ->
   (forall k e', failed store tableName batches k e' -> k = i) ->
   outcome c = Some (Rejected e)).

(** The reading of "the record of a failure holds the payload of the
    failed group" that asks least: whenever the reply to a batch is an
    error, some record logged by the call holds that batch, at any depth. *)
Definition failure_record_has_payload (store : Store) (tableName : string)
  (action : value) (items : list value) (schedule : list nat) : Prop :=
  forall i batch e,
    nth_error (processedItemBatches action items) i = Some batch ->
    In i schedule ->
    store i (BatchWriteCommand tableName batch) = inr e ->
    exists r,
      In r (logs (events (batchWriteItem store tableName action items schedule)))
      /\ mentions (VArr batch) r = true.

(** The value has truthy [name], [stack] and [message] fields. *)
Definition error_shaped (v : value) : bool :=
  JS.truthy (JS.get v "name") && JS.truthy (JS.get v "stack")
  && JS.truthy (JS.get v "message").

(** ** Sample data: 26 keys, and a store that fails the second batch *)

Definition sample_item (z : nat) : value := VObj [ ("id", VNum (Z.of_nat z)) ].

Definition sample_items (len : nat) : list value := map sample_item (seq 0 len).

Definition sample_error : value :=
  VObj [ ("name", VStr "ProvisionedThroughputExceededException");
         ("message", VStr "Rate exceeded");
         ("stack", VStr "at send") ].

Definition sample_store : Store :=
  fun i _ => if i =? 1 then inr sample_error else inl (VObj []).

(** ** Invariants of a call, as predicates on its state

    [batches] are the batches the call dispatched.  A request has been
    replied to when it is no longer in flight. *)

Definition replied (c : Call) (i : nat) : Prop :=
  ~ In i (map fst (in_flight c)).

Record Inv (store : Store) (tableName : string) (batches : list (list value))
  (c : Call) : Prop := {
  inv_nodup : NoDup (map fst (in_flight c));
  inv_batch : forall i b, In (i, b) (in_flight c) -> nth_error batches i = Some b;
  inv_outcome :
    match outcome c with
    | None =>
        unfulfilled c = length (in_flight c) /\ 0 < unfulfilled c /\
        forall i b, nth_error batches i = Some b -> replied c i ->
                    exists res, store i (BatchWriteCommand tableName b) = inl res
    | Some Resolved =>
        in_flight c = [] /\
        forall i b, nth_error batches i = Some b ->
                    exists res, store i (BatchWriteCommand tableName b) = inl res
    | Some (Rejected e) =>
        exists i b, nth_error batches i = Some b /\ replied c i /\
                    store i (BatchWriteCommand tableName b) = inr e
    end;
  inv_sends : sends (events c) = map (BatchWriteCommand tableName) batches
}.

(** The records of the fulfilled requests: the log holds one record with
    the number of a batch once its request has been fulfilled, the one
    with its response and payload, and none while it is in flight. *)
Definition complete_logged (store : Store) (tableName : string)
  (batchCount : nat) (batches : list (list value)) (c : Call) : Prop :=
  forall i b res,
    nth_error batches i = Some b ->
    store i (BatchWriteCommand tableName b) = inl res ->
    filter (has_batch_number (batch_number i batchCount)) (logs (events c)) =
    if in_dec Nat.eq_dec i (map fst (in_flight c))
    then []
    else [complete_log i batchCount res b].

(** The records of the [catch] block: those of the error the call was
    rejected with, if it was. *)
Definition failure_logged (on_reject : value -> list Event) (c : Call) : Prop :=
  filter is_fail_log (logs (events c)) =
  match outcome c with
  | Some (Rejected e) => filter is_fail_log (logs (on_reject e))
  | _ => []
  end.

(** Two calls are as far along as each other. *)
Definition same_progress (c c' : Call) : Prop :=
  in_flight c = in_flight c' /\ unfulfilled c = unfulfilled c' /\
  outcome c = outcome c'.

(** What the callback of batch [i] logs when the reply to its request
    arrives: the record of the response, or nothing for an error. *)
Definition reply_logs (store : Store) (tableName : string) (batchCount : nat)
  (batches : list (list value)) (i : nat) : list value :=
  match nth_error batches i with
  | Some batch =>
      match store i (BatchWriteCommand tableName batch) with
      | inl res => [complete_log i batchCount res batch]
      | inr _ => []
      end
  | None => []
  end.

Definition not_fail_log (r : value) : bool := negb (is_fail_log r).

(** The state [c'] of a call of [js/ddb.js] is the state [c] of the same
    call of [ts/ddb.ts] but for the records of the [catch] block. *)
Definition without_catch (c c' : Call) : Prop :=
  same_progress c c' /\
  sends (events c) = sends (events c') /\
  filter not_fail_log (logs (events c)) = logs (events c') /\
  filter is_fail_log (logs (events c')) = [].

(** Reading a request back: the item an operation writes or deletes, and
    the items of the operations a command holds for a table. *)
Definition item_of_operation (op : value) : value :=
  match JS.get op "PutRequest" with
  | VUndefined => JS.get (JS.get op "DeleteRequest") "Key"
  | put => JS.get put "Item"
  end.

Definition items_of_command (tableName : string) (command : value) : list value :=
  match JS.get (JS.get command "RequestItems") tableName with
  | VArr ops => map item_of_operation ops
  | _ => []
  end.

(** ** The single-request functions of [ddb.ts] and [ddb.js]

    Each sends one command and awaits the reply of the document client.
    [Sent] is the command handed to [ddbDocClient.send], [Logged] a record
    printed with [console.log(JSON.stringify(record, null, 2))]; the
    result is the value returned ([inl]) or the error thrown ([inr]). *)

Inductive Command : Type :=
| PutCommand (input : value)
| GetCommand (input : value)
| UpdateCommand (input : value)
| DeleteCommand (input : value)
| ScanCommand (input : value)
| QueryCommand (input : value)
| ExecuteStatementCommand (input : value)
| BatchExecuteStatementCommand (input : value).

(** The reply of the store to a command. *)
Definition Client := Command -> value + value.

Inductive Effect : Type :=
| Sent (command : Command)
| Logged (record : value).

Record Completion : Type := {
  effects : list Effect;
  result : value + value
}.

(** [const res = await ddbDocClient.send(command); log; return res] *)
Definition awaited (send : Client) (command : Command)
  (complete_record : value -> value) : Completion :=
  match send command with
  | inl res => {| effects := [Sent command; Logged (complete_record res)];
                  result := inl res |}
  | inr e => {| effects := [Sent command]; result := inr e |}
  end.

(** The same inside [try], with [catch (e) { log; throw e }]. *)
Definition tried (send : Client) (command : Command)
  (complete_record fail_record : value -> value) : Completion :=
  match send command with
  | inl res => {| effects := [Sent command; Logged (complete_record res)];
                  result := inl res |}
  | inr e => {| effects := [Sent command; Logged (fail_record e)];
                result := inr e |}
  end.

Module DdbTs.

Definition putItem (send : Client) (input actionFor : value) : Completion :=
  tried send (PutCommand input)
    (fun res => VObj [ ("message", VStr "Complete putItem");
                       ("input", input);
                       ("command_response", res) ])
    (fun e => VObj [ ("message", VStr "Fail to putItem");
                     ("input", input);
                     ("actionFor", actionFor);
                     ("error", logger (convertErrorObject e)) ]).

Definition getItem (send : Client) (input actionFor : value) : Completion :=
  tried send (GetCommand input)
    (fun res => VObj [ ("message", VStr "Complete getItem");
                       ("input", input);
                       ("command_response", res) ])
    (fun e => VObj [ ("message", VStr "Fail to getItem");
                     ("input", input);
                     ("actionFor", actionFor);
                     ("error", logger (convertErrorObject e)) ]).

Definition updateItem (send : Client) (input actionFor : value) : Completion :=
  tried send (UpdateCommand input)
    (fun res => VObj [ ("message", VStr "Complete updateItem");
                       ("input", input);
                       ("command_response", res) ])
    (fun e => VObj [ ("message", VStr "Fail to updateItem");
                     ("input", input);
                     ("actionFor", actionFor);
                     ("error", logger (convertErrorObject e)) ]).

Definition deleteItem (send : Client) (input actionFor : value) : Completion :=
  tried send (DeleteCommand input)
    (fun res => VObj [ ("message", VStr "Complete deleteItem");
                       ("command_response", res);
                       ("input", input) ])
    (fun e => VObj [ ("message", VStr "Fail to deleteItem");
                     ("actionFor", actionFor);
                     ("input", input);
                     ("error", logger (convertErrorObject e)) ]).

Definition scanTable (send : Client) (input actionFor : value) : Completion :=
  tried send (ScanCommand input)
    (fun res => VObj [ ("message", VStr "Complete getItems");
                       ("input", input);
                       ("command_response", res) ])
    (fun e => VObj [ ("message", VStr "Fail to scanTable");
                     ("actionFor", actionFor);
                     ("input", input);
                     ("error", logger (convertErrorObject e)) ]).

Definition queryItems (send : Client) (input : value) : Completion :=
  awaited send (QueryCommand input)
    (fun res => VObj [ ("message", VStr "Complete queryItems");
                       ("command_response", res);
                       ("input", input) ]).

Definition executeStmt (send : Client) (input : value) : Completion :=
  awaited send (ExecuteStatementCommand input)
    (fun res => VObj [ ("message", VStr "Complete executeStmt");
                       ("command_response", res);
                       ("input", input) ]).

Definition batchExecuteStmt (send : Client) (input : value) : Completion :=
  awaited send (BatchExecuteStatementCommand input)
    (fun res => VObj [ ("message", VStr "Complete batchExecuteStmt");
                       ("command_response", res);
                       ("input", input) ]).

End DdbTs.

Module DdbJs.

Definition putItem (send : Client) (input : value) : Completion :=
  awaited send (PutCommand input)
    (fun res => VObj [ ("message", VStr "Complete putItem");
                       ("input", input);
                       ("command_response", res) ]).

Definition getItem (send : Client) (input : value) : Completion :=
  awaited send (GetCommand input)
    (fun res => VObj [ ("message", VStr "Complete getItem");
                       ("input", input);
                       ("command_response", res) ]).

Definition updateItem (send : Client) (input : value) : Completion :=
  awaited send (UpdateCommand input)
    (fun res => VObj [ ("message", VStr "Complete updateItem");
                       ("input", input);
                       ("command_response", res) ]).

Definition deleteItem (send : Client) (input : value) : Completion :=
  awaited send (DeleteCommand input)
    (fun res => VObj [ ("message", VStr "Complete deleteItem");
                       ("command_response", res);
                       ("input", input) ]).

Definition scanTable (send : Client) (input : value) : Completion :=
  awaited send (ScanCommand input)
    (fun res => VObj [ ("message", VStr "Complete getItems");
                       ("input", input);
                       ("command_response", res) ]).

Definition queryItems (send : Client) (input : value) : Completion :=
  awaited send (QueryCommand input)
    (fun res => VObj [ ("message", VStr "Complete queryItems");
                       ("command_response", res);
                       ("input", input) ]).

Definition executeStmt (send : Client) (input : value) : Completion :=
  awaited send (ExecuteStatementCommand input)
    (fun res => VObj [ ("message", VStr "Complete executeStmt");
                       ("command_response", res);
                       ("input", input) ]).

Definition batchExecuteStmt (send : Client) (input : value) : Completion :=
  awaited send (BatchExecuteStatementCommand input)
    (fun res => VObj [ ("message", VStr "Complete batchExecuteStmt");
                       ("command_response", res);
                       ("input", input) ]).

End DdbJs.

(** The eight functions, to speak of all of them at once. *)
Inductive Wrapper : Type :=
| PutItem | GetItem | UpdateItem | DeleteItem | ScanTable
| QueryItems | ExecuteStmt | BatchExecuteStmt.

Definition command_of (w : Wrapper) (input : value) : Command :=
  match w with
  | PutItem => PutCommand input
  | GetItem => GetCommand input
  | UpdateItem => UpdateCommand input
  | DeleteItem => DeleteCommand input
  | ScanTable => ScanCommand input
  | QueryItems => QueryCommand input
  | ExecuteStmt => ExecuteStatementCommand input
  | BatchExecuteStmt => BatchExecuteStatementCommand input
  end.

Definition call_ts (w : Wrapper) (send : Client) (input actionFor : value)
  : Completion :=
  match w with
  | PutItem => DdbTs.putItem send input actionFor
  | GetItem => DdbTs.getItem send input actionFor
  | UpdateItem => DdbTs.updateItem send input actionFor
  | DeleteItem => DdbTs.deleteItem send input actionFor
  | ScanTable => DdbTs.scanTable send input actionFor
  | QueryItems => DdbTs.queryItems send input
  | ExecuteStmt => DdbTs.executeStmt send input
  | BatchExecuteStmt => DdbTs.batchExecuteStmt send input
  end.

Definition call_js (w : Wrapper) (send : Client) (input : value) : Completion :=
  match w with
  | PutItem => DdbJs.putItem send input
  | GetItem => DdbJs.getItem send input
  | UpdateItem => DdbJs.updateItem send input
  | DeleteItem => DdbJs.deleteItem send input
  | ScanTable => DdbJs.scanTable send input
  | QueryItems => DdbJs.queryItems send input
  | ExecuteStmt => DdbJs.executeStmt send input
  | BatchExecuteStmt => DdbJs.batchExecuteStmt send input
  end.

(** The functions of [ddb.ts] that have a [catch] block. *)
Definition has_catch (w : Wrapper) : bool :=
  match w with
  | PutItem | GetItem | UpdateItem | DeleteItem | ScanTable => true
  | QueryItems | ExecuteStmt | BatchExecuteStmt => false
  end.

Definition sent (effs : list Effect) : list Command :=
  flat_map (fun eff => match eff with Sent c => [c] | Logged _ => [] end) effs.

Definition logged (effs : list Effect) : list value :=
  flat_map (fun eff => match eff with Sent _ => [] | Logged r => [r] end) effs.

(** ** The response helpers

    [okResponse] and [errResponse] exist three times: in the TypeScript
    responses module, in [js/response.js] and in the JavaScript logger
    module.  All return the same shape.  [JSON.stringify] is the
    built-in: the functions are parameterised by it. *)

Record ProxyResult : Type := {
  statusCode : value;
  headers : value;
  body : string
}.

Definition cors_headers : value :=
  VObj [ ("Access-Control-Allow-Origin", VStr "*");
         ("Access-Control-Allow-Credentials", VBool true) ].

(** A parameter with a default value: [v = d] in a parameter list. *)
Definition default_to (d v : value) : value :=
  match v with
  | VUndefined => d
  | _ => v
  end.

(** The TypeScript module: the request id is an argument, the records
    are printed with [console.log(JSON.stringify(log, null, 2))].  Its
    local [convertErrorObject] is the one of [ddb.ts], word for word. *)
Module ResponseTs.
Section Stringify.
Variable JSON_stringify : value -> string.

Definition okResponse (requestId message data statusCode : value)
  : list Event * ProxyResult :=
  let data := default_to (VObj []) data in
  let statusCode := default_to (VNum 200) statusCode in
  let log := VObj [ ("message", message); ("requestId", requestId);
                    ("data", data) ] in
  ([ConsoleLog log],
   {| statusCode := statusCode;
      headers := cors_headers;
      body := JSON_stringify
                (VObj [ ("requestId", requestId);
                        ("statusCode", VNum 200);
                        ("message", message);
                        ("data", data) ]) |}).

Definition errResponse (requestId statusCode message errorObject : value)
  : list Event * ProxyResult :=
  let errorObject := default_to (VObj []) errorObject in
  let error := convertErrorObject errorObject in
  let log := VObj [ ("message", message); ("requestId", requestId);
                    ("errorObject", errorObject) ] in
  ([ConsoleLog log],
   {| statusCode := statusCode;
      headers := cors_headers;
      body := JSON_stringify
                (VObj [ ("requestId", requestId);
                        ("statusCode", statusCode);
                        ("message", message);
                        ("error", response error) ]) |}).

End Stringify.
End ResponseTs.

(** [js/response.js]: the request id is taken from the [context]
    argument, which is the Lambda context or an id of the caller's own;
    the first component of the result is the object given to
    [console.log].  Its [okResponse] calls a [logger] that the file does
    not declare, and is not modelled. *)
Module ResponseJs.
Section Stringify.
Variable JSON_stringify : value -> string.

(** [context ? (context?.awsRequestId ? context.awsRequestId : context) : null] *)
Definition rid (context : value) : value :=
  if JS.truthy context
  then if JS.truthy (JS.get context "awsRequestId")
       then JS.get context "awsRequestId"
       else context
  else VNull.

Definition constructedError (errorObject : value) : value :=
  if JS.truthy errorObject
     && JS.truthy (JS.get errorObject "name")
     && JS.truthy (JS.get errorObject "stack")
     && JS.truthy (JS.get errorObject "message")
  then VObj [ ("name", JS.get errorObject "name");
              ("message", JS.get errorObject "message") ]
  else errorObject.

Definition errResponse (statusCode message context errorObject : value)
  : list value * ProxyResult :=
  let context := default_to VNull context in
  let errorObject := default_to (VObj []) errorObject in
  let rid := rid context in
  let constructedError := constructedError errorObject in
  ([ VObj [ ("message", message);
            ("error", errorObject);
            ("requestId", rid);
            ("errorStack", JS.get errorObject "stack") ] ],
   {| statusCode := statusCode;
      headers := cors_headers;
      body := JSON_stringify
                (VObj [ ("request_id", rid);
                        ("status_code", statusCode);
                        ("message", message);
                        ("error", constructedError) ]) |}).

End Stringify.
End ResponseJs.

(** The JavaScript logger module: [logger] and [requestId] are variables
    of the module, set by [initializeContext].  A logger is the default
    one of winston or one made by [winston.createLogger] from a level and
    default metadata (its format and transports are the same for every
    logger the module makes).  What is observed of logging is the calls
    made to the logger. *)
Module LoggerJs.

Inductive Logger : Type :=
| Winston
| Created (level : value) (defaultMeta : value).

Record State : Type := {
  logger : Logger;
  requestId : value
}.

(** [logger.<level>(message, meta)] on the logger [target]. *)
Inductive LogCall : Type :=
| Log (target : Logger) (level : string) (message meta : value).

(** [let logger = winston; let requestId = null;] *)
Definition initial : State := {| logger := Winston; requestId := VNull |}.

Section Environment.
Variable JSON_stringify : value -> string.
(** [process.env.LOG_LEVEL] *)
Variable LOG_LEVEL : value.

Definition okResponse (st : State) (message data : value)
  : list LogCall * ProxyResult :=
  let data := default_to (VObj []) data in
  ([Log (logger st) "info" message data],
   {| statusCode := VNum 200;
      headers := cors_headers;
      body := JSON_stringify
                (VObj [ ("request_id", requestId st);
                        ("status_code", VNum 200);
                        ("message", message);
                        ("data", data) ]) |}).

Definition errResponse (st : State) (statusCode message errorObject : value)
  : list LogCall * ProxyResult :=
  let errorObject := default_to (VObj []) errorObject in
  let constructedError :=
    if JS.truthy errorObject
       && JS.truthy (JS.get errorObject "name")
       && JS.truthy (JS.get errorObject "stack")
       && JS.truthy (JS.get errorObject "message")
    then VObj [ ("name", JS.get errorObject "name");
                ("message", JS.get errorObject "message") ]
    else errorObject in
  ([Log (logger st) "error" message constructedError],
   {| statusCode := statusCode;
      headers := cors_headers;
      body := JSON_stringify
                (VObj [ ("request_id", requestId st);
                        ("status_code", statusCode);
                        ("message", message);
                        ("error", constructedError) ]) |}).

(** [now] is [new Date().getTime()] at the time of the call.  The reads
    [context?.awsRequestId] and the like are [JS.get], which yields
    undefined on null and undefined as [?.] does. *)
Definition initializeContext (now : value) (st : State) (event context : value)
  : State * list LogCall :=
  let event := default_to VNull event in
  let context := default_to VNull context in
  let requestId := JS.or (JS.get context "awsRequestId") VNull in
  let logger :=
    Created (JS.or LOG_LEVEL (VStr "info"))
            (VObj [ ("requestId", JS.or (JS.get context "awsRequestId") VNull);
                    ("service", JS.or (JS.get context "functionName") VNull);
                    ("timestamp",
                     JS.or (JS.get (JS.get event "requestContext")
                                   "requestTimeEpoch")
                           now) ]) in
  ({| logger := logger; requestId := requestId |},
   if JS.truthy (JS.get event "requestContext")
   then [ Log logger "info" (VStr "Request Context")
              (VObj [ ("identity", JS.get event "requestContext");
                      ("payload",
                       VObj [ ("queryStringParameters",
                               JS.or (JS.get event "queryStringParameters") VNull);
                              ("pathParameters",
                               JS.or (JS.get event "pathParameters") VNull);
                              ("body", JS.or (JS.get event "body") VNull) ]) ]) ]
   else []).

Definition error (st : State) (message errorObject : value) : list LogCall :=
  [Log (logger st) "error" message
       (VObj [ ("errors", default_to (VObj []) errorObject) ])].

Definition warn (st : State) (message warningObject : value) : list LogCall :=
  [Log (logger st) "warn" message
       (VObj [ ("params", default_to (VObj []) warningObject) ])].

Definition info (st : State) (message infoObject : value) : list LogCall :=
  [Log (logger st) "info" message
       (VObj [ ("params", default_to (VObj []) infoObject) ])].

Definition verbose (st : State) (message verboseObject : value) : list LogCall :=
  [Log (logger st) "verbose" message
       (VObj [ ("params", default_to (VObj []) verboseObject) ])].

Definition debug (st : State) (message debugObject : value) : list LogCall :=
  [Log (logger st) "debug" message
       (VObj [ ("params", default_to (VObj []) debugObject) ])].

(** A use of the module: a sequence of calls of its exported functions. *)
Inductive Invocation : Type :=
| InitializeContext (now event context : value)
| OkResponse (message data : value)
| ErrResponse (statusCode message errorObject : value)
| Error (message errorObject : value)
| Warn (message warningObject : value)
| Info (message infoObject : value)
| Verbose (message verboseObject : value)
| Debug (message debugObject : value).

Definition invoke (st : State) (call : Invocation) : State * list LogCall :=
  match call with
  | InitializeContext now event context => initializeContext now st event context
  | OkResponse message data => (st, fst (okResponse st message data))
  | ErrResponse statusCode message errorObject =>
      (st, fst (errResponse st statusCode message errorObject))
  | Error message errorObject => (st, error st message errorObject)
  | Warn message warningObject => (st, warn st message warningObject)
  | Info message infoObject => (st, info st message infoObject)
  | Verbose message verboseObject => (st, verbose st message verboseObject)
  | Debug message debugObject => (st, debug st message debugObject)
  end.

(** The state after the calls, and all the calls made to loggers. *)
Definition invoke_all (calls : list Invocation) : State * list LogCall :=
  fold_left (fun acc call =>
               let '(st, out) := acc in
               let '(st', out') := invoke st call in
               (st', out ++ out'))
            calls (initial, []).

(** The request id that goes with the calls made to a logger: the one of
    its default metadata; the default logger of winston has none. *)
Definition logged_request_id (l : Logger) : value :=
  match l with
  | Winston => VNull
  | Created _ defaultMeta => JS.get defaultMeta "requestId"
  end.

Definition target (c : LogCall) : Logger :=
  match c with Log l _ _ _ => l end.

Definition is_initializeContext (call : Invocation) : bool :=
  match call with
  | InitializeContext _ _ _ => true
  | _ => false
  end.

(** The state the calls lead to from [st]. *)
Definition states_from (st : State) (calls : list Invocation) : State :=
  fold_left (fun st call => fst (invoke st call)) calls st.

(** The two variables of the module agree, and the request id is usable. *)
Definition request_id_consistent (st : State) : Prop :=
  logged_request_id (logger st) = requestId st /\
  (requestId st = VNull \/ JS.truthy (requestId st) = true).

End Environment.
End LoggerJs.

(** A stand-in for [JSON.stringify] where an example needs one. *)
Definition sample_stringify (v : value) : string :=
  match v with
  | VStr s => s
  | _ => "{}"
  end.

(** * Properties *)

(** ** Values *)

Section ValueInduction.
Variable P : value -> Prop.
Hypothesis Hundefined : P VUndefined.
Hypothesis Hnull : P VNull.
Hypothesis Hbool : forall b, P (VBool b).
Hypothesis Hnum : forall z, P (VNum z).
Hypothesis Hnan : P VNaN.
Hypothesis Hstr : forall s, P (VStr s).
Hypothesis Harr : forall xs, Forall P xs -> P (VArr xs).
Hypothesis Hobj : forall fields, Forall (fun p => P (snd p)) fields ->
                                 P (VObj fields).

Fixpoint value_nested_ind (v : value) : P v :=
  match v with
  | VUndefined => Hundefined
  | VNull => Hnull
  | VBool b => Hbool b
  | VNum z => Hnum z
  | VNaN => Hnan
  | VStr s => Hstr s
  | VArr xs =>
      Harr xs
           ((fix all (l : list value) : Forall P l :=
               match l with
               | [] => Forall_nil P
               | x :: l' => Forall_cons x (value_nested_ind x) (all l')
               end) xs)
  | VObj fields =>
      Hobj fields
           ((fix all (l : list (string * value))
               : Forall (fun p => P (snd p)) l :=
               match l with
               | [] => Forall_nil _
               | p :: l' =>
                   Forall_cons (P := fun p => P (snd p)) p
                               (value_nested_ind (snd p)) (all l')
               end) fields)
  end.

End ValueInduction.

Lemma value_eqb_eq (a b : value) : value_eqb a b = true <-> a = b.
Proof.
  revert b. induction a as [ | | x | x | | x | xs IH | fs IH]
    using value_nested_ind; intros b;
    destruct b as [ | | y | y | | y | ys | gs]; simpl;
    try (split; [discriminate | congruence]); try tauto.
  - rewrite Bool.eqb_true_iff. split; congruence.
  - rewrite Z.eqb_eq. split; congruence.
  - rewrite String.eqb_eq. split; congruence.
  - revert ys. induction IH as [|x xs Hx _ IHxs]; intros [|y ys];
      try (split; [discriminate | congruence]); [tauto|].
    rewrite andb_true_iff, Hx, IHxs. split.
    + intros [-> H]. congruence.
    + intros H. injection H as -> ->. auto.
  - revert gs. induction IH as [|[k x] fs Hx _ IHfs]; intros [|[k' y] gs];
      try (split; [discriminate | congruence]); [tauto|].
    simpl in Hx.
    rewrite !andb_true_iff, String.eqb_eq, Hx, IHfs. split.
    + intros [[-> ->] H]. congruence.
    + intros H. injection H as -> -> ->. auto.
Qed.

Lemma mentions_refl (v : value) : mentions v v = true.
Proof.
  assert (H : value_eqb v v = true) by now apply value_eqb_eq.
  destruct v; simpl in *; rewrite ?H; reflexivity.
Qed.

(** ** Lists and strings *)

Lemma forEach_push_map (f : value -> value) (items acc : list value) :
  forEach_push f items acc = acc ++ map f items.
Proof.
  unfold forEach_push. revert acc.
  induction items as [|item items IH]; intros acc; simpl.
  - now rewrite app_nil_r.
  - rewrite IH, <- app_assoc. reflexivity.
Qed.

Lemma processItems_map (action : value) (items : list value) :
  processItems action items =
  map (if JS.strict_eq_str action "put" then PutRequest else DeleteRequest)
      items.
Proof.
  unfold processItems.
  destruct (JS.strict_eq_str action "put"); apply forEach_push_map.
Qed.

Lemma strict_eq_str_true (v : value) (s : string) :
  JS.strict_eq_str v s = true <-> v = VStr s.
Proof.
  destruct v; simpl; try (split; [discriminate | congruence]).
  rewrite String.eqb_eq. split; congruence.
Qed.

Lemma string_length_append (s t : string) :
  String.length (s ++ t)%string = String.length s + String.length t.
Proof. induction s as [|c s IH]; simpl; congruence. Qed.

Lemma string_append_cancel_r (s1 s2 t : string) :
  (s1 ++ t = s2 ++ t)%string -> s1 = s2.
Proof.
  revert s2. induction s1 as [|c s1 IH]; intros [|c' s2] H; simpl in H.
  - reflexivity.
  - apply (f_equal String.length) in H. simpl in H.
    rewrite string_length_append in H. lia.
  - apply (f_equal String.length) in H. simpl in H.
    rewrite string_length_append in H. lia.
  - injection H as -> H. f_equal. now apply IH.
Qed.

Lemma string_of_nat_inj (i j : nat) :
  JS.string_of_nat i = JS.string_of_nat j -> i = j.
Proof.
  unfold JS.string_of_nat. intros H.
  apply Unsigned.to_uint_inj.
  apply (f_equal NilEmpty.uint_of_string) in H.
  rewrite !NilEmpty.usu in H. congruence.
Qed.

Lemma batch_number_inj (i j n : nat) :
  batch_number i n = batch_number j n -> i = j.
Proof.
  unfold batch_number. intros H.
  apply string_of_nat_inj. eapply string_append_cancel_r. exact H.
Qed.

(** ** [splitEvery] *)

Section SplitEveryFacts.
Context {A : Type}.
Implicit Types (xs : list A) (n : positive).

Lemma splitEvery_loop_eq n xs idx :
  splitEvery_loop n xs idx =
  if lt_dec idx (length xs)
  then JS.slice idx (idx + Pos.to_nat n) xs
         :: splitEvery_loop n xs (idx + Pos.to_nat n)
  else [].
Proof.
  rewrite splitEvery_loop_equation_1.
  destruct (lt_dec idx (length xs)); reflexivity.
Qed.

Lemma slice_step idx k xs :
  JS.slice idx (idx + k) xs = firstn k (skipn idx xs).
Proof. unfold JS.slice. f_equal. lia. Qed.

Lemma splitEvery_loop_concat n xs idx :
  concat (splitEvery_loop n xs idx) = skipn idx xs.
Proof.
  funelim (splitEvery_loop n xs idx).
  - simpl. rewrite H, slice_step.
    rewrite <- (firstn_skipn (Pos.to_nat n) (skipn idx xs)) at 2.
    rewrite skipn_skipn. do 2 f_equal. lia.
  - simpl. symmetry. apply skipn_all2. lia.
Qed.

Lemma splitEvery_loop_done n xs idx :
  length xs <= idx -> splitEvery_loop n xs idx = [].
Proof.
  intros H. rewrite splitEvery_loop_eq.
  destruct (lt_dec idx (length xs)); [lia | reflexivity].
Qed.

Lemma ceil_div_0 k : 0 < k -> ceil_div 0 k = 0.
Proof. intros H. unfold ceil_div. apply Nat.div_small. lia. Qed.

Lemma ceil_div_step m k : 0 < k -> 0 < m -> ceil_div m k = S (ceil_div (m - k) k).
Proof.
  intros Hk Hm. unfold ceil_div.
  destruct (le_lt_dec k m) as [Hle | Hlt].
  - replace (m + k - 1) with ((m - k + k - 1) + 1 * k) by lia.
    rewrite Nat.div_add by lia. lia.
  - replace (m - k) with 0 by lia. simpl.
    rewrite (Nat.div_small (k - 1) k) by lia.
    symmetry. apply Nat.div_unique with (r := m - 1). all: lia.
Qed.

Lemma splitEvery_loop_length n xs idx :
  length (splitEvery_loop n xs idx) =
  ceil_div (length xs - idx) (Pos.to_nat n).
Proof.
  funelim (splitEvery_loop n xs idx);
    pose proof (Pos2Nat.is_pos n) as Hn.
  - simpl. rewrite H.
    rewrite (ceil_div_step (length xs - idx)) by lia.
    do 2 f_equal. lia.
  - simpl. replace (length xs - idx) with 0 by lia.
    now rewrite ceil_div_0.
Qed.

Lemma splitEvery_loop_full_but_last n xs idx :
  Forall (fun batch => length batch = Pos.to_nat n)
         (removelast (splitEvery_loop n xs idx)).
Proof.
  funelim (splitEvery_loop n xs idx);
    pose proof (Pos2Nat.is_pos n) as Hn; [|constructor].
  simpl.
  destruct (splitEvery_loop n xs (idx + Pos.to_nat n)) as [|b bs] eqn:E;
    [constructor|].
  constructor; [|assumption].
  rewrite slice_step, length_firstn, length_skipn.
  destruct (le_lt_dec (length xs) (idx + Pos.to_nat n)) as [Hle | Hlt];
    [|lia].
  rewrite (splitEvery_loop_done _ _ _ Hle) in E. discriminate.
Qed.

Lemma splitEvery_loop_bounded n xs idx :
  Forall (fun batch => 0 < length batch <= Pos.to_nat n)
         (splitEvery_loop n xs idx).
Proof.
  funelim (splitEvery_loop n xs idx);
    pose proof (Pos2Nat.is_pos n) as Hn.
  - constructor; [|assumption].
    rewrite slice_step, length_firstn, length_skipn. lia.
  - constructor.
Qed.

Lemma splitEvery_single n xs :
  0 < length xs <= Pos.to_nat n -> splitEvery n xs = [xs].
Proof.
  intros H. unfold splitEvery. rewrite splitEvery_loop_eq.
  destruct (lt_dec 0 (length xs)); [|lia].
  rewrite splitEvery_loop_done by lia.
  rewrite slice_step. simpl. now rewrite firstn_all2 by lia.
Qed.

Lemma splitEvery_two n xs :
  Pos.to_nat n < length xs <= 2 * Pos.to_nat n ->
  splitEvery n xs = [firstn (Pos.to_nat n) xs; skipn (Pos.to_nat n) xs].
Proof.
  intros H. unfold splitEvery. rewrite splitEvery_loop_eq.
  destruct (lt_dec 0 (length xs)); [|lia].
  rewrite splitEvery_loop_eq.
  destruct (lt_dec (0 + Pos.to_nat n) (length xs)); [|lia].
  rewrite splitEvery_loop_done by lia.
  rewrite !slice_step. simpl.
  now rewrite (firstn_all2 (n := Pos.to_nat n) (skipn (Pos.to_nat n) xs))
    by (rewrite length_skipn; lia).
Qed.

Lemma list_sum_length_concat (l : list (list A)) :
  list_sum (map (@length A) l) = length (concat l).
Proof. now rewrite length_concat. Qed.

End SplitEveryFacts.

(** ** Requests in flight *)

Section InFlight.
Context {B : Type}.
Implicit Types (l : list (nat * B)).

Lemma find_index l i j b :
  find (fun p => fst p =? i) l = Some (j, b) -> j = i /\ In (i, b) l.
Proof.
  intros H. apply find_some in H as [Hin Heq]. simpl in Heq.
  apply Nat.eqb_eq in Heq. subst j. auto.
Qed.

Lemma find_index_none l i :
  find (fun p => fst p =? i) l = None -> ~ In i (map fst l).
Proof.
  intros H Hin. apply in_map_iff in Hin as [p [Hp Hin]].
  apply (find_none _ _ H) in Hin. apply Nat.eqb_neq in Hin. auto.
Qed.

Lemma without_absent l i : ~ In i (map fst l) -> without i l = l.
Proof.
  induction l as [|p l IH]; simpl; intros H; [reflexivity|].
  destruct (Nat.eqb_spec (fst p) i) as [E | E]; simpl.
  - tauto.
  - f_equal. apply IH. tauto.
Qed.

Lemma in_without l i k :
  In k (map fst (without i l)) <-> In k (map fst l) /\ k <> i.
Proof.
  unfold without. rewrite !in_map_iff. split.
  - intros [p [Hp Hin]]. apply filter_In in Hin as [Hin Hne].
    apply negb_true_iff, Nat.eqb_neq in Hne. split; [eauto | congruence].
  - intros [[p [Hp Hin]] Hne]. exists p. split; [assumption|].
    apply filter_In. split; [assumption|].
    apply negb_true_iff, Nat.eqb_neq. congruence.
Qed.

Lemma in_without_inv l i p : In p (without i l) -> In p l.
Proof. unfold without. intros H. now apply filter_In in H. Qed.

Lemma NoDup_without l i :
  NoDup (map fst l) -> NoDup (map fst (without i l)).
Proof.
  induction l as [|p l IH]; simpl; intros H; [constructor|].
  inversion H as [|? ? Hnotin Hnodup]; subst.
  destruct (negb (fst p =? i)); simpl; [|auto].
  constructor; [|auto].
  intros Hin. apply in_without in Hin. tauto.
Qed.

Lemma length_without l i b :
  NoDup (map fst l) -> In (i, b) l -> S (length (without i l)) = length l.
Proof.
  induction l as [|p l IH]; simpl; intros Hnd Hin; [contradiction|].
  inversion Hnd as [|? ? Hnotin Hnodup]; subst.
  destruct (Nat.eqb_spec (fst p) i) as [E | E]; simpl.
  - subst i. now rewrite without_absent.
  - f_equal. apply IH; [assumption|].
    destruct Hin as [-> | Hin]; [simpl in E; congruence | assumption].
Qed.

End InFlight.

Lemma in_indexed_from {A} (l : list A) (s i : nat) (x : A) :
  In (i, x) (combine (seq s (length l)) l) <->
  s <= i /\ nth_error l (i - s) = Some x.
Proof.
  revert s. induction l as [|y l IH]; intros s; simpl.
  - split; [contradiction|]. intros [_ H]. destruct (i - s); discriminate.
  - rewrite IH. split.
    + intros [H | [Hle H]].
      * injection H as -> ->. rewrite Nat.sub_diag. auto.
      * split; [lia|]. replace (i - s) with (S (i - S s)) by lia. exact H.
    + intros [Hle H]. destruct (i - s) as [|k] eqn:E.
      * left. injection H as ->. f_equal. lia.
      * right. split; [lia|]. replace (i - S s) with k by lia. exact H.
Qed.

Lemma in_indexed {A} (l : list A) (i : nat) (x : A) :
  In (i, x) (indexed l) <-> nth_error l i = Some x.
Proof.
  unfold indexed. rewrite in_indexed_from, Nat.sub_0_r.
  split; [tauto | split; [lia | assumption]].
Qed.

Lemma map_fst_indexed {A} (l : list A) :
  map fst (indexed l) = seq 0 (length l).
Proof.
  unfold indexed. generalize 0.
  induction l as [|y l IH]; intros s; simpl; [reflexivity|].
  now rewrite IH.
Qed.

Lemma sends_app (evs evs' : list Event) :
  sends (evs ++ evs') = sends evs ++ sends evs'.
Proof. unfold sends. now rewrite flat_map_app. Qed.

Lemma logs_app (evs evs' : list Event) :
  logs (evs ++ evs') = logs evs ++ logs evs'.
Proof. unfold logs. now rewrite flat_map_app. Qed.

(** ** Invariants of a call *)

Section RunFacts.
Variable store : Store.
Variable tableName : string.
Variable batchCount : nat.
Variable on_reject : value -> list Event.
Variable batches : list (list value).

Hypothesis on_reject_sends : forall e, sends (on_reject e) = [].

#[local] Abbreviation step := (complete store tableName batchCount on_reject).
#[local] Abbreviation command := (BatchWriteCommand tableName).
#[local] Abbreviation inv := (Inv store tableName batches).

Ltac complete_cases c i :=
  let j := fresh "j" in
  unfold complete;
  destruct (find (fun p => fst p =? i) (in_flight c))
    as [[j ?b]|] eqn:Hfind;
  [ apply find_index in Hfind as [-> Hin];
    destruct (store i (command b)) as [res|e] eqn:Hstore;
    [ | destruct (outcome c) as [o|] eqn:Hout ]
  | ].

Lemma in_flight_complete c i :
  in_flight (step c i) = without i (in_flight c).
Proof.
  complete_cases c i; try reflexivity.
  apply find_index_none in Hfind. now rewrite without_absent.
Qed.

Lemma replied_complete c i k :
  replied (step c i) k <-> replied c k \/ k = i.
Proof.
  unfold replied. rewrite in_flight_complete, in_without.
  destruct (Nat.eq_dec k i); tauto.
Qed.

Lemma inv_dispatch : inv (dispatch tableName batches).
Proof.
  constructor; simpl.
  - rewrite map_fst_indexed. apply seq_NoDup.
  - intros i b. apply in_indexed.
  - destruct (Nat.eqb_spec (length batches) 0) as [E | E].
    + destruct batches; [|discriminate]. split; [reflexivity|].
      intros [|i] b; discriminate.
    + unfold indexed. rewrite length_combine, length_seq, Nat.min_id.
      split; [reflexivity|]. split; [lia|].
      intros i b Hi Hrep. exfalso. apply Hrep.
      change (In i (map fst (indexed batches))).
      rewrite map_fst_indexed. apply in_seq.
      assert (i < length batches) by (apply nth_error_Some; congruence).
      lia.
  - induction batches as [|b l IH]; simpl; [reflexivity | now rewrite IH].
Qed.

Lemma inv_complete c i : inv c -> inv (step c i).
Proof.
  intros [Hnd Hb Ho Hs].
  assert (Hnd' : NoDup (map fst (without i (in_flight c))))
    by now apply NoDup_without.
  assert (Hb' : forall k b, In (k, b) (without i (in_flight c)) ->
                            nth_error batches k = Some b)
    by (intros k b H; eapply Hb, in_without_inv, H).
  complete_cases c i; [ | | | now constructor].
  - (* the request is fulfilled *)
    pose proof (length_without _ _ _ Hnd Hin) as Hlen.
    constructor; simpl; try assumption.
    + destruct (outcome c) as [[|e]|] eqn:Hout.
      * destruct Ho as [Hnil _]. rewrite Hnil in Hin. contradiction.
      * destruct Ho as (k & bk & Hk & Hrep & Hfail).
        exists k, bk. unfold replied in *. simpl.
        rewrite in_without. tauto.
      * destruct Ho as (Hu & Hpos & Hrep).
        destruct (Nat.eqb_spec (unfulfilled c - 1) 0) as [E | E].
        -- assert (Hnil : without i (in_flight c) = [])
             by (destruct (without i (in_flight c)); [reflexivity|];
                 simpl in Hlen; lia).
           split; [assumption|].
           intros k bk Hk. destruct (Nat.eq_dec k i) as [-> | Hne].
           ++ rewrite (Hb _ _ Hin) in Hk. injection Hk as <-. eauto.
           ++ apply (Hrep k bk Hk). intros Hink.
              assert (H : In k (map fst (without i (in_flight c))))
                by (apply in_without; auto).
              rewrite Hnil in H. contradiction.
        -- unfold replied in *. simpl. split; [lia|]. split; [lia|].
           intros k bk Hk Hnot. rewrite in_without in Hnot.
           destruct (Nat.eq_dec k i) as [-> | Hne].
           ++ rewrite (Hb _ _ Hin) in Hk. injection Hk as <-. eauto.
           ++ apply (Hrep k bk Hk). tauto.
    + rewrite sends_app. simpl. now rewrite app_nil_r.
  - (* the request is rejected, Promise.all is settled already *)
    constructor; simpl; try assumption.
    destruct o as [|e'].
    + destruct Ho as [Hnil _]. rewrite Hnil in Hin. contradiction.
    + destruct Ho as (k & bk & Hk & Hrep & Hfail).
      exists k, bk. unfold replied in *. simpl.
      rewrite in_without. tauto.
  - (* the request is rejected and rejects Promise.all *)
    constructor; simpl; try assumption.
    + exists i, b. unfold replied. simpl. rewrite in_without.
      split; [now apply Hb|]. split; [tauto | assumption].
    + rewrite sends_app, on_reject_sends. now rewrite app_nil_r.
Qed.

Lemma inv_fold schedule c : inv c -> inv (fold_left step schedule c).
Proof.
  revert c. induction schedule as [|i schedule IH]; intros c H; simpl.
  - assumption.
  - apply IH. now apply inv_complete.
Qed.

Lemma inv_run schedule :
  inv (run store tableName batchCount on_reject batches schedule).
Proof. apply inv_fold, inv_dispatch. Qed.

Lemma replied_fold schedule c k :
  replied (fold_left step schedule c) k <-> replied c k \/ In k schedule.
Proof.
  revert c. induction schedule as [|i schedule IH]; intros c; simpl.
  - tauto.
  - rewrite IH, replied_complete. intuition congruence.
Qed.

Lemma replied_run schedule k :
  k < length batches ->
  (replied (run store tableName batchCount on_reject batches schedule) k
   <-> In k schedule).
Proof.
  intros Hk. unfold run. rewrite replied_fold.
  unfold replied at 1. simpl. rewrite map_fst_indexed, in_seq.
  split; [intros [H | H]; [lia | assumption] | auto].
Qed.

(** *** The records of fulfilled requests *)

Hypothesis on_reject_numberless :
  forall e s, filter (has_batch_number s) (logs (on_reject e)) = [].

#[local] Abbreviation complete_logged :=
  (complete_logged store tableName batchCount batches).

Lemma has_batch_number_complete_log i j res b :
  has_batch_number (batch_number i batchCount)
                   (complete_log j batchCount res b) = (i =? j).
Proof.
  unfold has_batch_number. simpl.
  destruct (Nat.eqb_spec i j) as [-> | Hne].
  - apply String.eqb_refl.
  - apply String.eqb_neq. intros H. apply batch_number_inj in H. congruence.
Qed.

Lemma in_dec_without (l : list (nat * list value)) i k (X : Type) (x y : X) :
  k <> i ->
  (if in_dec Nat.eq_dec k (map fst (without i l)) then x else y) =
  (if in_dec Nat.eq_dec k (map fst l) then x else y).
Proof.
  intros Hne.
  destruct (in_dec Nat.eq_dec k (map fst (without i l))) as [H | H],
           (in_dec Nat.eq_dec k (map fst l)) as [H' | H'];
    try reflexivity; rewrite in_without in H; tauto.
Qed.

Lemma complete_logged_dispatch : complete_logged (dispatch tableName batches).
Proof.
  intros i b res Hi _. simpl.
  assert (Hlogs : forall l, logs (map (fun batch => Send (command batch)) l) = [])
    by (induction l; simpl; auto).
  rewrite Hlogs. simpl.
  destruct (in_dec Nat.eq_dec i (map fst (indexed batches))) as [H | H];
    [reflexivity|].
  exfalso. apply H. rewrite map_fst_indexed. apply in_seq.
  assert (i < length batches) by (apply nth_error_Some; congruence). lia.
Qed.

Lemma complete_logged_complete c i :
  inv c -> complete_logged c -> complete_logged (step c i).
Proof.
  intros [Hnd Hb _ _] Hc k bk resk Hk Hres.
  specialize (Hc k bk resk Hk Hres).
  complete_cases c i; simpl; [ | | | assumption].
  - rewrite logs_app, filter_app. simpl.
    rewrite has_batch_number_complete_log.
    destruct (Nat.eqb_spec k i) as [-> | Hne].
    + rewrite (Hb _ _ Hin) in Hk. injection Hk as <-.
      assert (res = resk) as -> by congruence.
      destruct (in_dec Nat.eq_dec i (map fst (in_flight c))) as [_ | H].
      * rewrite Hc. simpl.
        destruct (in_dec Nat.eq_dec i (map fst (without i (in_flight c))))
          as [H | _]; [|reflexivity].
        apply in_without in H. tauto.
      * exfalso. apply H. apply in_map_iff. now exists (i, b).
    + rewrite app_nil_r, Hc. symmetry. now apply in_dec_without.
  - assert (k <> i) as Hne
      by (intros ->; rewrite (Hb _ _ Hin) in Hk; congruence).
    rewrite Hc. symmetry. now apply in_dec_without.
  - assert (k <> i) as Hne
      by (intros ->; rewrite (Hb _ _ Hin) in Hk; congruence).
    rewrite logs_app, filter_app, on_reject_numberless, app_nil_r, Hc.
    symmetry. now apply in_dec_without.
Qed.

Lemma complete_logged_fold schedule c :
  inv c -> complete_logged c -> complete_logged (fold_left step schedule c).
Proof.
  revert c. induction schedule as [|i schedule IH]; intros c H Hc; simpl.
  - assumption.
  - apply IH; [now apply inv_complete | now apply complete_logged_complete].
Qed.

Lemma complete_logged_run schedule :
  complete_logged (run store tableName batchCount on_reject batches schedule).
Proof.
  apply complete_logged_fold; [apply inv_dispatch | apply complete_logged_dispatch].
Qed.

(** *** The record of the rejection *)

#[local] Abbreviation failure_logged := (failure_logged on_reject).

Lemma failure_logged_dispatch : failure_logged (dispatch tableName batches).
Proof.
  unfold failure_logged. simpl.
  assert (Hlogs : forall l, logs (map (fun batch => Send (command batch)) l) = [])
    by (induction l; simpl; auto).
  rewrite Hlogs. simpl. now destruct (length batches =? 0).
Qed.

Lemma failure_logged_complete c i :
  inv c -> failure_logged c -> failure_logged (step c i).
Proof.
  unfold failure_logged. intros [_ _ Ho _] Hf.
  complete_cases c i; simpl; [ | | | assumption].
  - rewrite logs_app, filter_app, Hf. simpl.
    destruct (outcome c) as [[|e]|]; simpl;
      rewrite ?app_nil_r; try reflexivity.
    now destruct (unfulfilled c - 1 =? 0).
  - assumption.
  - rewrite logs_app, filter_app, Hf. reflexivity.
Qed.

Lemma failure_logged_run schedule :
  failure_logged (run store tableName batchCount on_reject batches schedule).
Proof.
  unfold run. generalize inv_dispatch failure_logged_dispatch.
  generalize (dispatch tableName batches).
  induction schedule as [|i schedule IH]; intros c H Hf; simpl.
  - assumption.
  - apply IH; [now apply inv_complete | now apply failure_logged_complete].
Qed.

(** *** What does not depend on the [catch] block *)

Lemma fold_handler_irrelevant (n' : nat) (h' : value -> list Event)
  schedule c c' :
  same_progress c c' ->
  same_progress (fold_left step schedule c)
                (fold_left (complete store tableName n' h') schedule c').
Proof.
  revert c c'. induction schedule as [|i schedule IH]; intros c c' H; simpl.
  - assumption.
  - apply IH. destruct H as (Hi & Hu & Ho). unfold complete, same_progress.
    rewrite <- Hi, <- Hu, <- Ho.
    destruct (find (fun p => fst p =? i) (in_flight c)) as [[j b]|];
      [|auto].
    destruct (store i (command b)); [simpl; auto|].
    destruct (outcome c); simpl; auto.
Qed.

Lemma run_handler_irrelevant (n' : nat) (h' : value -> list Event) schedule :
  same_progress (run store tableName batchCount on_reject batches schedule)
                (run store tableName n' h' batches schedule).
Proof.
  apply fold_handler_irrelevant. unfold same_progress. auto.
Qed.

End RunFacts.

(** ** The two sources *)

Section Handlers.
Variables (action : value) (items : list value).

Lemma ts_catch_sends e : sends (ts_catch action items e) = [].
Proof. reflexivity. Qed.

Lemma js_catch_sends e : sends (js_catch e) = [].
Proof. reflexivity. Qed.

Lemma ts_catch_numberless e s :
  filter (has_batch_number s) (logs (ts_catch action items e)) = [].
Proof. reflexivity. Qed.

Lemma ts_catch_fail_log e :
  filter is_fail_log (logs (ts_catch action items e)) =
  [fail_log action items e].
Proof. reflexivity. Qed.

End Handlers.

Lemma run_no_batches store tableName n h schedule :
  run store tableName n h [] schedule =
  {| in_flight := []; unfulfilled := 0; outcome := Some Resolved; events := [] |}.
Proof.
  unfold run. simpl.
  induction schedule as [|i schedule IH]; simpl; [reflexivity | exact IH].
Qed.

Lemma batchWriteItem_inv store tableName action items schedule :
  Inv store tableName (processedItemBatches action items)
      (batchWriteItem store tableName action items schedule).
Proof. apply inv_run, ts_catch_sends. Qed.

Lemma batchWriteItem_js_inv store tableName action items schedule :
  Inv store tableName (processedItemBatches action items)
      (batchWriteItem_js store tableName action items schedule).
Proof. apply inv_run, js_catch_sends. Qed.

Lemma batchWriteItem_sends store tableName action items schedule :
  sends (events (batchWriteItem store tableName action items schedule)) =
  map (BatchWriteCommand tableName) (processedItemBatches action items).
Proof. apply batchWriteItem_inv. Qed.

(** ** The partition into batches *)

(** C1: the mapped write operations are split into [ceil(L/25)] contiguous
    batches; every batch but the last holds exactly 25 operations, none
    holds more than 25, the batches hold [L] operations in all, and their
    concatenation is the input mapped in order.  These batches, in this
    order, are what both sources send, whatever the table and the replies. *)
Theorem batchWriteItem_partition (store : Store) (tableName : string)
  (action : value) (items : list value) (schedule : list nat) :
  let batches := processedItemBatches action items in
  length batches = ceil_div (length items) 25 /\
  Forall (fun batch => length batch = 25) (removelast batches) /\
  Forall (fun batch => length batch <= 25) batches /\
  list_sum (map (@length value) batches) = length items /\
  concat batches =
    map (if JS.strict_eq_str action "put" then PutRequest else DeleteRequest)
        items /\
  sends (events (batchWriteItem store tableName action items schedule)) =
    map (BatchWriteCommand tableName) batches /\
  sends (events (batchWriteItem_js store tableName action items schedule)) =
    map (BatchWriteCommand tableName) batches.
Proof.
  intros batches. subst batches. unfold processedItemBatches, splitEvery.
  assert (Hconcat : concat (splitEvery_loop 25 (processItems action items) 0)
                    = processItems action items)
    by apply splitEvery_loop_concat.
  assert (Hlen : length (processItems action items) = length items)
    by (rewrite processItems_map; apply length_map).
  repeat split.
  - rewrite splitEvery_loop_length, Hlen, Nat.sub_0_r. reflexivity.
  - apply (splitEvery_loop_full_but_last 25).
  - eapply Forall_impl; [|apply (splitEvery_loop_bounded 25)].
    simpl. intros b Hb. change (Pos.to_nat 25) with 25 in Hb. lia.
  - rewrite list_sum_length_concat, Hconcat. exact Hlen.
  - rewrite Hconcat. apply processItems_map.
  - apply batchWriteItem_inv.
  - apply batchWriteItem_js_inv.
Qed.

(** C5: 25 items make one batch of 25, not two; 26 items make two batches,
    of 25 and of 1, in that order. *)
Theorem batchWriteItem_boundary (store : Store) (tableName : string)
  (action : value) (items : list value) (schedule : list nat) :
  let ops := processItems action items in
  let batches := processedItemBatches action items in
  let sent := sends (events (batchWriteItem store tableName action items schedule)) in
  (length items = 25 ->
   batches = [ops] /\ map (@length value) batches = [25] /\
   sent = [BatchWriteCommand tableName ops]) /\
  (length items = 26 ->
   batches = [firstn 25 ops; skipn 25 ops] /\
   map (@length value) batches = [25; 1] /\
   sent = [BatchWriteCommand tableName (firstn 25 ops);
           BatchWriteCommand tableName (skipn 25 ops)]).
Proof.
  intros ops batches sent.
  assert (Hlen : length ops = length items)
    by (unfold ops; rewrite processItems_map; apply length_map).
  assert (Hsent : sent = map (BatchWriteCommand tableName) batches)
    by apply batchWriteItem_sends.
  split; intros HL.
  - assert (Hb : batches = [ops])
      by (apply splitEvery_single; change (Pos.to_nat 25) with 25; lia).
    rewrite Hsent, Hb. simpl. rewrite Hlen, HL. auto.
  - assert (Hb : batches = [firstn 25 ops; skipn 25 ops])
      by (apply (splitEvery_two 25); change (Pos.to_nat 25) with 25; lia).
    rewrite Hsent, Hb. repeat split.
    cbn [map]. rewrite length_firstn, length_skipn, Hlen, HL. reflexivity.
Qed.

Lemma batchWriteItem_boundary_witness :
  map (@length value) (processedItemBatches (VStr "put") (sample_items 25))
  = [25] /\
  map (@length value) (processedItemBatches (VStr "put") (sample_items 26))
  = [25; 1].
Proof.
  split.
  - apply (proj1 (batchWriteItem_boundary
                    sample_store "orders" (VStr "put") (sample_items 25) [0])).
    reflexivity.
  - apply (proj2 (batchWriteItem_boundary
                    sample_store "orders" (VStr "put") (sample_items 26) [0; 1])).
    reflexivity.
Defined.

(** C4: with no item no batch is made and no request is sent: the call is
    fulfilled before any reply could arrive, and nothing is logged. *)
Theorem batchWriteItem_empty (store : Store) (tableName : string)
  (action : value) (schedule : list nat) :
  processedItemBatches action [] = [] /\
  batchWriteItem store tableName action [] schedule =
    {| in_flight := []; unfulfilled := 0; outcome := Some Resolved;
       events := [] |} /\
  batchWriteItem store tableName action [] [] =
    batchWriteItem store tableName action [] schedule.
Proof.
  assert (H : processedItemBatches action [] = []).
  { unfold processedItemBatches, splitEvery.
    apply splitEvery_loop_done. rewrite processItems_map. simpl. lia. }
  unfold batchWriteItem. rewrite H, !run_no_batches. auto.
Qed.

(** ** The write operations *)

(** C3: with action [delete] every operation is a [DeleteRequest] holding
    the item as [Key] and has no [PutRequest]; with action [put] every
    operation is a [PutRequest] holding the item as [Item].  These
    operations, batched, are what is sent. *)
Theorem batchWriteItem_operation_shape (store : Store) (tableName : string)
  (items : list value) (schedule : list nat) :
  processItems (VStr "delete") items =
    map (fun item => VObj [ ("DeleteRequest", VObj [ ("Key", item) ]) ]) items /\
  Forall (fun op => JS.get op "PutRequest" = VUndefined)
         (processItems (VStr "delete") items) /\
  sends (events (batchWriteItem store tableName (VStr "delete") items schedule)) =
    map (BatchWriteCommand tableName)
        (splitEvery 25 (processItems (VStr "delete") items)) /\
  processItems (VStr "put") items =
    map (fun item => VObj [ ("PutRequest", VObj [ ("Item", item) ]) ]) items /\
  sends (events (batchWriteItem store tableName (VStr "put") items schedule)) =
    map (BatchWriteCommand tableName)
        (splitEvery 25 (processItems (VStr "put") items)).
Proof.
  repeat split.
  - apply processItems_map.
  - rewrite processItems_map. simpl. apply Forall_forall.
    intros op Hop. apply in_map_iff in Hop as [item [<- _]]. reflexivity.
  - apply batchWriteItem_sends.
  - apply processItems_map.
  - apply batchWriteItem_sends.
Qed.

(** C9: the action is not validated.  Whatever it is, other than the
    string [put], every item is mapped to [{DeleteRequest: {Key: item}}]
    (with no [PutRequest]) and the call behaves as with [delete]: the
    requests carry these operations, the outcome is the same, and there
    is no rejection unless a request fails. *)
Theorem batchWriteItem_unvalidated_action (store : Store) (tableName : string)
  (action : value) (items : list value) (schedule : list nat) :
  action <> VStr "put" ->
  let call := batchWriteItem store tableName action items schedule in
  processItems action items =
    map (fun item => VObj [ ("DeleteRequest", VObj [ ("Key", item) ]) ]) items /\
  Forall (fun op => JS.get op "PutRequest" = VUndefined)
         (processItems action items) /\
  sends (events call) =
    map (fun batch => VObj [ ("RequestItems", VObj [ (tableName, VArr batch) ]) ])
        (splitEvery 25
           (map (fun item => VObj [ ("DeleteRequest", VObj [ ("Key", item) ]) ])
                items)) /\
  outcome call =
    outcome (batchWriteItem store tableName (VStr "delete") items schedule) /\
  batchWriteItem_js store tableName action items schedule =
    batchWriteItem_js store tableName (VStr "delete") items schedule /\
  ((forall i batch,
       nth_error (processedItemBatches action items) i = Some batch ->
       exists res, store i (BatchWriteCommand tableName batch) = inl res) ->
   forall e, outcome call <> Some (Rejected e)).
Proof.
  intros Hne call.
  assert (Hput : JS.strict_eq_str action "put" = false).
  { destruct (JS.strict_eq_str action "put") eqn:E; [|reflexivity].
    apply strict_eq_str_true in E. contradiction. }
  assert (Hops : processItems action items =
                 map (fun item =>
                        VObj [ ("DeleteRequest", VObj [ ("Key", item) ]) ])
                     items)
    by (rewrite processItems_map, Hput; reflexivity).
  assert (Hdel : processItems (VStr "delete") items =
                 map (fun item =>
                        VObj [ ("DeleteRequest", VObj [ ("Key", item) ]) ])
                     items)
    by (rewrite processItems_map; reflexivity).
  assert (Hbatches : processedItemBatches action items
                     = processedItemBatches (VStr "delete") items)
    by (unfold processedItemBatches; congruence).
  split; [exact Hops|]. split; [|split; [|split; [|split]]].
  - rewrite Hops. apply Forall_forall.
    intros op Hop. apply in_map_iff in Hop as [item [<- _]]. reflexivity.
  - rewrite <- Hops.
    exact (batchWriteItem_sends store tableName action items schedule).
  - unfold call, batchWriteItem. rewrite Hbatches.
    apply run_handler_irrelevant.
  - unfold batchWriteItem_js. now rewrite Hbatches.
  - intros Hok e Hrej.
    pose proof (inv_outcome _ _ _ _
                  (batchWriteItem_inv store tableName action items schedule))
      as Ho.
    fold call in Ho. rewrite Hrej in Ho.
    destruct Ho as (i & b & Hi & _ & Hfail).
    destruct (Hok i b Hi) as [res Hres]. congruence.
Qed.

Lemma batchWriteItem_unvalidated_action_witness :
  processItems (VStr "remove") (sample_items 26) =
    map (fun item => VObj [ ("DeleteRequest", VObj [ ("Key", item) ]) ])
        (sample_items 26) /\
  outcome (batchWriteItem sample_store "orders" (VStr "remove")
                          (sample_items 26) [0; 1]) =
  outcome (batchWriteItem sample_store "orders" (VStr "delete")
                          (sample_items 26) [0; 1]).
Proof.
  assert (Hne : VStr "remove" <> VStr "put") by discriminate.
  pose proof (batchWriteItem_unvalidated_action
                sample_store "orders" (VStr "remove") (sample_items 26) [0; 1]
                Hne) as H.
  split; [apply H | apply H].
Defined.

(** ** [convertErrorObject] *)

(** C8: for a value with truthy [name], [stack] and [message] the logger
    projection is [{name, message, stack}] and the response projection
    [{name, message}], without the stack; any other value is returned as
    it is in both projections. *)
Theorem convertErrorObject_projections (errorObject : value) :
  (error_shaped errorObject = true ->
   logger (convertErrorObject errorObject) =
     VObj [ ("name", JS.get errorObject "name");
            ("message", JS.get errorObject "message");
            ("stack", JS.get errorObject "stack") ] /\
   response (convertErrorObject errorObject) =
     VObj [ ("name", JS.get errorObject "name");
            ("message", JS.get errorObject "message") ] /\
   JS.get (response (convertErrorObject errorObject)) "stack" = VUndefined) /\
  (error_shaped errorObject = false ->
   logger (convertErrorObject errorObject) = errorObject /\
   response (convertErrorObject errorObject) = errorObject).
Proof.
  unfold error_shaped, convertErrorObject. split; intros H.
  - apply andb_prop in H as [H Hm]. apply andb_prop in H as [Hn Hs].
    assert (Ht : JS.truthy errorObject = true)
      by (destruct errorObject; try discriminate; reflexivity).
    rewrite Ht, Hn, Hs, Hm. simpl. unfold JS.or. rewrite Hs. auto.
  - rewrite <- !andb_assoc in *. rewrite H, andb_false_r. auto.
Qed.

Lemma convertErrorObject_projections_witness :
  response (convertErrorObject sample_error) =
    VObj [ ("name", VStr "ProvisionedThroughputExceededException");
           ("message", VStr "Rate exceeded") ] /\
  logger (convertErrorObject (VObj [ ("code", VNum 500) ])) =
    VObj [ ("code", VNum 500) ].
Proof.
  split.
  - apply (proj1 (convertErrorObject_projections sample_error)). reflexivity.
  - apply (proj2 (convertErrorObject_projections (VObj [ ("code", VNum 500) ]))).
    reflexivity.
Defined.

(** ** Joining the requests *)

Lemma run_joins_all store tableName n h batches schedule :
  (forall e, sends (h e) = []) ->
  joins_all store tableName batches schedule
            (run store tableName n h batches schedule).
Proof.
  intros Hsends.
  pose proof (inv_run store tableName n h batches Hsends schedule) as Hinv.
  pose proof (replied_run store tableName n h batches schedule) as Hrep.
  set (c := run store tableName n h batches schedule) in *.
  destruct Hinv as [_ Hbatch Ho Hs].
  assert (Hrej : forall i e, In i schedule -> failed store tableName batches i e ->
            exists e', outcome c = Some (Rejected e') /\
                       exists k, In k schedule /\
                                 failed store tableName batches k e').
  { intros i e Hi (b & Hb & Hfail).
    assert (Hlt : i < length batches) by (apply nth_error_Some; congruence).
    apply (Hrep i Hlt) in Hi.
    destruct (outcome c) as [[|e']|].
    - destruct Ho as [_ Hall]. destruct (Hall i b Hb). congruence.
    - exists e'. split; [reflexivity|].
      destruct Ho as (k & bk & Hk & Hrk & Hfk). exists k. split.
      + apply Hrep; [|assumption]. apply nth_error_Some. congruence.
      + now exists bk.
    - destruct Ho as (_ & _ & Hall). destruct (Hall i b Hb Hi). congruence. }
  unfold joins_all. split; [|split; [|split; [|split]]].
  - exact Hs.
  - intros Hres. rewrite Hres in Ho. destruct Ho as [Hnil Hall].
    split; [assumption|]. split.
    + intros i Hi. apply Hrep; [assumption|]. unfold replied. now rewrite Hnil.
    + intros i e (b & Hb & Hfail). destruct (Hall i b Hb). congruence.
  - intros Hall Hnone. destruct (outcome c) as [[|e]|]; [reflexivity | |].
    + destruct Ho as (k & bk & Hk & _ & Hfk).
      destruct (Hnone k e). now exists bk.
    + destruct Ho as (Hu & Hpos & _).
      assert (Hsome : exists i b, In (i, b) (in_flight c)).
      { revert Hu. destruct (in_flight c) as [|[i b] l]; simpl; intros Hu.
        - lia.
        - exists i, b. left. reflexivity. }
      destruct Hsome as (i & b & Hin).
      assert (Hlt : i < length batches)
        by (apply nth_error_Some; rewrite (Hbatch i b Hin); discriminate).
      pose proof (Hall i Hlt) as Hsched. apply (Hrep i Hlt) in Hsched.
      exfalso. apply Hsched. apply in_map_iff. now exists (i, b).
  - exact Hrej.
  - intros i e Hi Hfail Honly.
    destruct (Hrej i e Hi Hfail) as (e' & -> & k & _ & Hk).
    pose proof (Honly k e' Hk) as ->.
    destruct Hfail as (b & Hb & Hf), Hk as (b' & Hb' & Hf'). congruence.
Qed.

(** C2: in both sources the call returns (is fulfilled) only once every
    request that was sent has been replied to, all of them successfully,
    and it does return then; a request that fails rejects the call with
    the error of a failed request (with its own when the others succeed);
    and every batch is sent exactly once, so nothing is retried. *)
Theorem batchWriteItem_joins_all (store : Store) (tableName : string)
  (action : value) (items : list value) (schedule : list nat) :
  joins_all store tableName (processedItemBatches action items) schedule
            (batchWriteItem store tableName action items schedule) /\
  joins_all store tableName (processedItemBatches action items) schedule
            (batchWriteItem_js store tableName action items schedule).
Proof.
  split; apply run_joins_all.
  - apply ts_catch_sends.
  - apply js_catch_sends.
Qed.

Lemma batchWriteItem_joins_all_witness :
  outcome (batchWriteItem sample_store "orders" (VStr "put")
                          (sample_items 26) [0; 1])
  = Some (Rejected sample_error).
Proof.
  destruct (batchWriteItem_joins_all sample_store "orders" (VStr "put")
              (sample_items 26) [0; 1]) as [(_ & _ & _ & _ & H) _].
  apply (H 1).
  - simpl. auto.
  - exists [PutRequest (sample_item 25)]. split; reflexivity.
  - intros k e' (b & _ & Hf). unfold sample_store in Hf.
    destruct (Nat.eqb_spec k 1); [assumption | discriminate].
Defined.

(** A rejection does not wait: when the second of two batches fails
    first, the call is rejected while the first request is in flight. *)
Example batchWriteItem_rejects_early :
  let call := batchWriteItem sample_store "orders" (VStr "put")
                             (sample_items 26) [1] in
  outcome call = Some (Rejected sample_error) /\
  map fst (in_flight call) = [0].
Proof. split; reflexivity. Qed.

(** ** Diagnostic records *)

(** C6: once the reply to a batch has arrived and is a response, the log
    holds exactly one record with the number of that batch: the one with
    its index and the batch count (as [batch_number]), the response of the
    store and the batch itself. *)
Theorem batchWriteItem_complete_logged (store : Store) (tableName : string)
  (action : value) (items : list value) (schedule : list nat)
  (i : nat) (batch : list value) (res : value) :
  let batches := processedItemBatches action items in
  let call := batchWriteItem store tableName action items schedule in
  nth_error batches i = Some batch ->
  store i (BatchWriteCommand tableName batch) = inl res ->
  In i schedule ->
  filter (has_batch_number (batch_number i (length batches)))
         (logs (events call)) =
  [ VObj [ ("message", VStr "Complete batchWrite");
           ("batch_number",
            VStr (JS.string_of_nat i ++ "out of "
                  ++ JS.string_of_nat (length batches))%string);
           ("command_response", res);
           ("input", VArr batch) ] ].
Proof.
  intros batches call Hi Hres Hin.
  pose proof (complete_logged_run store tableName (length batches)
                (ts_catch action items) batches
                (ts_catch_sends action items)
                (ts_catch_numberless action items)
                schedule i batch res Hi Hres) as H.
  etransitivity; [exact H|].
  destruct (in_dec Nat.eq_dec i _) as [Hfl | _]; [|reflexivity].
  exfalso. revert Hfl.
  apply (replied_run store tableName (length batches)
                     (ts_catch action items) batches schedule i);
    [|assumption].
  apply nth_error_Some. congruence.
Qed.

Lemma batchWriteItem_complete_logged_witness :
  filter (has_batch_number "0out of 2")
         (logs (events (batchWriteItem sample_store "orders" (VStr "delete")
                                       (sample_items 26) [1; 0]))) =
  [ complete_log 0 2 (VObj []) (map DeleteRequest (sample_items 25)) ].
Proof.
  apply (batchWriteItem_complete_logged
           sample_store "orders" (VStr "delete") (sample_items 26) [1; 0]
           0 (map DeleteRequest (sample_items 25)) (VObj [])).
  - reflexivity.
  - reflexivity.
  - simpl. auto.
Defined.

(** C7, as the code has it: when the reply to a batch is an error, the
    call is rejected with the error [e'] of a failed batch, and the log
    then holds exactly one record of the [catch] block: its message, the
    action, all the items of the call and the logger projection of [e']. *)
Theorem batchWriteItem_failure_logged (store : Store) (tableName : string)
  (action : value) (items : list value) (schedule : list nat)
  (i : nat) (e : value) :
  let batches := processedItemBatches action items in
  let call := batchWriteItem store tableName action items schedule in
  In i schedule ->
  failed store tableName batches i e ->
  exists e',
    outcome call = Some (Rejected e') /\
    (exists k, In k schedule /\ failed store tableName batches k e') /\
    filter is_fail_log (logs (events call)) =
    [ VObj [ ("message", VStr "Fail to batchWriteItem");
             ("action", action);
             ("items", VArr items);
             ("error", logger (convertErrorObject e')) ] ].
Proof.
  intros batches call Hin Hfail.
  destruct (run_joins_all store tableName (length batches)
              (ts_catch action items) batches schedule
              (ts_catch_sends action items))
    as (_ & _ & _ & Hrej & _).
  destruct (Hrej i e Hin Hfail) as (e' & Hout & Hk).
  exists e'. split; [assumption|]. split; [assumption|].
  pose proof (failure_logged_run store tableName (length batches)
                (ts_catch action items) batches
                (ts_catch_sends action items) schedule) as H.
  unfold failure_logged in H. rewrite Hout in H. exact H.
Qed.

Lemma batchWriteItem_failure_logged_witness :
  exists e',
    outcome (batchWriteItem sample_store "orders" (VStr "delete")
                            (sample_items 26) [0; 1]) = Some (Rejected e') /\
    (exists k, In k [0; 1] /\
               failed sample_store "orders"
                      (processedItemBatches (VStr "delete") (sample_items 26))
                      k e') /\
    filter is_fail_log
           (logs (events (batchWriteItem sample_store "orders" (VStr "delete")
                                         (sample_items 26) [0; 1]))) =
    [ VObj [ ("message", VStr "Fail to batchWriteItem");
             ("action", VStr "delete");
             ("items", VArr (sample_items 26));
             ("error", logger (convertErrorObject e')) ] ].
Proof.
  apply (batchWriteItem_failure_logged
           sample_store "orders" (VStr "delete") (sample_items 26) [0; 1]
           1 sample_error).
  - simpl. auto.
  - exists [DeleteRequest (sample_item 25)]. split; reflexivity.
Defined.

(** C7 as stated fails: 26 keys to delete, the second batch (one key) is
    answered with an error after the first has succeeded.  The log then
    holds the record of the first batch and the record of the [catch]
    block, and neither holds the batch that failed. *)
Lemma failure_record_lacks_payload :
  ~ failure_record_has_payload sample_store "orders" (VStr "delete")
                               (sample_items 26) [0; 1].
Proof.
  intros H.
  destruct (H 1 [DeleteRequest (sample_item 25)] sample_error)
    as (r & Hin & Hm).
  - reflexivity.
  - simpl. auto.
  - reflexivity.
  - assert (Hall : forallb
                     (fun r => negb (mentions
                                       (VArr [DeleteRequest (sample_item 25)]) r))
                     (logs (events (batchWriteItem
                                      sample_store "orders" (VStr "delete")
                                      (sample_items 26) [0; 1]))) = true)
      by (vm_compute; reflexivity).
    rewrite forallb_forall in Hall. specialize (Hall r Hin).
    rewrite Hm in Hall. discriminate.
Qed.

(** The log of that call, in full. *)
Example failure_record_sample :
  logs (events (batchWriteItem sample_store "orders" (VStr "delete")
                               (sample_items 26) [0; 1])) =
  [ complete_log 0 2 (VObj []) (map DeleteRequest (sample_items 25));
    VObj [ ("message", VStr "Fail to batchWriteItem");
           ("action", VStr "delete");
           ("items", VArr (sample_items 26));
           ("error", sample_error) ] ].
Proof. vm_compute. reflexivity. Qed.

(** * Further properties of the batch writer *)

(** ** Where each item goes *)

Section SplitEveryIndex.
Context {A : Type}.
Implicit Types (xs : list A) (n : positive).

Lemma splitEvery_loop_nth n xs idx i :
  nth_error (splitEvery_loop n xs idx) i =
  if lt_dec (idx + i * Pos.to_nat n) (length xs)
  then Some (firstn (Pos.to_nat n) (skipn (idx + i * Pos.to_nat n) xs))
  else None.
Proof.
  revert i. funelim (splitEvery_loop n xs idx); intros i;
    pose proof (Pos2Nat.is_pos n) as Hn.
  - destruct i as [|i]; simpl.
    + rewrite Nat.add_0_r. destruct (lt_dec idx (length xs)); [|lia].
      now rewrite slice_step.
    + rewrite H.
      replace (idx + Pos.to_nat n + i * Pos.to_nat n)
        with (idx + (Pos.to_nat n + i * Pos.to_nat n)) by lia.
      reflexivity.
  - destruct (lt_dec (idx + i * Pos.to_nat n) (length xs)); [lia|].
    now destruct i.
Qed.

Lemma splitEvery_loop_sizes n xs idx :
  map (@length A) (splitEvery_loop n xs idx) =
  repeat (Pos.to_nat n) ((length xs - idx) / Pos.to_nat n)
  ++ (if (length xs - idx) mod Pos.to_nat n =? 0
      then []
      else [(length xs - idx) mod Pos.to_nat n]).
Proof.
  funelim (splitEvery_loop n xs idx);
    pose proof (Pos2Nat.is_pos n) as Hn;
    set (k := Pos.to_nat n) in *; set (m := length xs - idx) in *.
  - simpl map. rewrite H. clear H.
    rewrite slice_step, length_firstn, length_skipn. fold k. fold m.
    destruct (le_lt_dec k m) as [Hle | Hlt].
    + replace (length xs - (idx + k)) with (m - k) by (unfold m; lia).
      assert (Hdiv : m / k = S ((m - k) / k)).
      { replace m with ((m - k) + 1 * k) at 1 by lia.
        rewrite Nat.div_add by lia. lia. }
      assert (Hmod : m mod k = (m - k) mod k).
      { replace m with ((m - k) + 1 * k) at 1 by lia.
        now rewrite Nat.Div0.mod_add. }
      rewrite Hdiv, Hmod. simpl repeat. rewrite Nat.min_l by lia.
      reflexivity.
    + replace (length xs - (idx + k)) with 0 by (unfold m; lia).
      rewrite Nat.Div0.div_0_l, Nat.Div0.mod_0_l.
      rewrite (Nat.div_small m k), (Nat.mod_small m k) by lia.
      simpl. rewrite Nat.min_r by lia.
      destruct (Nat.eqb_spec m 0); [unfold m in *; lia | reflexivity].
  - replace m with 0 by (unfold m; lia).
    rewrite Nat.Div0.div_0_l, Nat.Div0.mod_0_l. reflexivity.
Qed.

End SplitEveryIndex.

(** X1: the item at position [j] of the input is written by the request
    of batch [j / 25], as the operation at position [j mod 25] of that
    batch, whatever the store replies and in whatever order. *)
Theorem batchWriteItem_item_placement (store : Store) (tableName : string)
  (action : value) (items : list value) (schedule : list nat)
  (j : nat) (item : value) :
  nth_error items j = Some item ->
  exists batch,
    nth_error (processedItemBatches action items) (j / 25) = Some batch /\
    nth_error batch (j mod 25) =
      Some ((if JS.strict_eq_str action "put" then PutRequest else DeleteRequest)
              item) /\
    nth_error (sends (events (batchWriteItem store tableName action items
                                             schedule))) (j / 25) =
      Some (BatchWriteCommand tableName batch).
Proof.
  intros Hj.
  set (op := if JS.strict_eq_str action "put" then PutRequest else DeleteRequest).
  assert (Hops : processItems action items = map op items)
    by apply processItems_map.
  assert (Hlt : j < length items) by (apply nth_error_Some; congruence).
  pose proof (Nat.div_mod_eq j 25) as Hdm.
  pose proof (Nat.mod_upper_bound j 25) as Hmod.
  exists (firstn 25 (skipn (j / 25 * 25) (processItems action items))).
  assert (Hbatch : nth_error (processedItemBatches action items) (j / 25) =
                   Some (firstn 25 (skipn (j / 25 * 25)
                                          (processItems action items)))).
  { unfold processedItemBatches, splitEvery. rewrite splitEvery_loop_nth.
    change (Pos.to_nat 25) with 25. rewrite Nat.add_0_l.
    destruct (lt_dec (j / 25 * 25) (length (processItems action items)))
      as [_ | Hge]; [reflexivity|].
    rewrite Hops, length_map in Hge. lia. }
  split; [exact Hbatch|]. split.
  - rewrite nth_error_firstn.
    destruct (Nat.ltb_spec (j mod 25) 25) as [_ | Hge]; [|lia].
    rewrite nth_error_skipn.
    replace (j / 25 * 25 + j mod 25) with j by lia.
    rewrite Hops. now apply map_nth_error.
  - rewrite batchWriteItem_sends. now apply map_nth_error.
Qed.

Lemma batchWriteItem_item_placement_witness :
  exists batch,
    nth_error (processedItemBatches (VStr "delete") (sample_items 26)) 1
      = Some batch /\
    nth_error batch 0 = Some (DeleteRequest (sample_item 25)) /\
    nth_error (sends (events (batchWriteItem sample_store "orders"
                                (VStr "delete") (sample_items 26) [1; 0]))) 1
      = Some (BatchWriteCommand "orders" batch).
Proof.
  apply (batchWriteItem_item_placement
           sample_store "orders" (VStr "delete") (sample_items 26) [1; 0]
           25 (sample_item 25)).
  reflexivity.
Defined.

(** X2: [L] items make [L / 25] batches of 25 operations followed, when 25
    does not divide [L], by one batch of [L mod 25]; no batch is empty, so
    no request without operations is ever sent. *)
Theorem batchWriteItem_batch_sizes (store : Store) (tableName : string)
  (action : value) (items : list value) (schedule : list nat) :
  map (@length value) (processedItemBatches action items) =
    repeat 25 (length items / 25)
    ++ (if length items mod 25 =? 0 then [] else [length items mod 25]) /\
  Forall (fun command =>
            exists batch, command = BatchWriteCommand tableName batch /\
                          0 < length batch)
         (sends (events (batchWriteItem store tableName action items schedule))).
Proof.
  split.
  - unfold processedItemBatches, splitEvery.
    rewrite splitEvery_loop_sizes. change (Pos.to_nat 25) with 25.
    rewrite Nat.sub_0_r, processItems_map, length_map. reflexivity.
  - rewrite batchWriteItem_sends. apply Forall_forall.
    intros command Hin. apply in_map_iff in Hin as (batch & <- & Hin).
    exists batch. split; [reflexivity|].
    pose proof (splitEvery_loop_bounded 25 (processItems action items) 0) as Hb.
    rewrite Forall_forall in Hb. now apply Hb.
Qed.

(** ** Replies in their order of arrival *)

Section ScheduleFacts.
Variable store : Store.
Variable tableName : string.
Variable batchCount : nat.
Variable on_reject : value -> list Event.
Variable batches : list (list value).

Hypothesis on_reject_sends : forall e, sends (on_reject e) = [].

#[local] Abbreviation step := (complete store tableName batchCount on_reject).
#[local] Abbreviation command := (BatchWriteCommand tableName).
#[local] Abbreviation inv := (Inv store tableName batches).
#[local] Abbreviation run' := (run store tableName batchCount on_reject batches).

Ltac complete_cases c i :=
  let j := fresh "j" in
  unfold complete;
  destruct (find (fun p => fst p =? i) (in_flight c))
    as [[j ?b]|] eqn:Hfind;
  [ apply find_index in Hfind as [-> Hin];
    destruct (store i (command b)) as [res|e] eqn:Hstore;
    [ | destruct (outcome c) as [o|] eqn:Hout ]
  | ].

Lemma outcome_complete_settled c i o :
  outcome c = Some o -> outcome (step c i) = Some o.
Proof.
  intros Ho. unfold complete.
  destruct (find (fun p => fst p =? i) (in_flight c)) as [[j b]|];
    [|assumption].
  destruct (store i (command b)); simpl; now rewrite Ho.
Qed.

Lemma outcome_fold_settled schedule c o :
  outcome c = Some o -> outcome (fold_left step schedule c) = Some o.
Proof.
  revert c. induction schedule as [|i schedule IH]; intros c Ho; simpl.
  - assumption.
  - apply IH. now apply outcome_complete_settled.
Qed.

Lemma run_app s s' : run' (s ++ s') = fold_left step s' (run' s).
Proof. unfold run. apply fold_left_app. Qed.

Lemma find_index_some {B} (l : list (nat * B)) i :
  In i (map fst l) -> exists b, find (fun p => fst p =? i) l = Some (i, b).
Proof.
  intros Hin.
  destruct (find (fun p => fst p =? i) l) as [[j b]|] eqn:Hfind.
  - apply find_index in Hfind as [-> _]. now exists b.
  - apply find_index_none in Hfind. contradiction.
Qed.

Lemma run_first_failure pre i post e :
  (forall k e', In k pre -> ~ failed store tableName batches k e') ->
  failed store tableName batches i e ->
  outcome (run' (pre ++ i :: post)) = Some (Rejected e).
Proof.
  intros Hpre (b & Hb & Hfail).
  rewrite run_app. simpl. apply outcome_fold_settled.
  pose proof (inv_run store tableName batchCount on_reject batches
                      on_reject_sends pre) as [_ Hbatch Ho _].
  pose proof (replied_run store tableName batchCount on_reject batches pre)
    as Hrep.
  set (c := run store tableName batchCount on_reject batches pre) in *.
  assert (Hlt : i < length batches) by (apply nth_error_Some; congruence).
  assert (Hfl : In i (map fst (in_flight c))).
  { destruct (in_dec Nat.eq_dec i (map fst (in_flight c))) as [H | H];
      [assumption|].
    apply (Hrep i Hlt) in H. destruct (Hpre i e H). now exists b. }
  destruct (find_index_some _ _ Hfl) as [b' Hfind].
  assert (Hin : In (i, b') (in_flight c)) by now apply find_index in Hfind.
  assert (b' = b) as -> by (apply Hbatch in Hin; congruence).
  unfold complete. rewrite Hfind, Hfail.
  destruct (outcome c) as [[|e']|]; [ | |reflexivity].
  - destruct Ho as [Hnil _]. rewrite Hnil in Hin. contradiction.
  - destruct Ho as (k & bk & Hk & Hrk & Hfk). exfalso.
    assert (Hklt : k < length batches) by (apply nth_error_Some; congruence).
    apply (Hrep k Hklt) in Hrk. destruct (Hpre k e' Hrk). now exists bk.
Qed.

(** *** The log, reply by reply *)

Hypothesis on_reject_silent : forall e, logs (on_reject e) = [].

Lemma logs_fold schedule c :
  inv c ->
  NoDup schedule ->
  (forall i, In i schedule -> i < length batches ->
             In i (map fst (in_flight c))) ->
  logs (events (fold_left step schedule c)) =
  logs (events c)
  ++ flat_map (reply_logs store tableName batchCount batches) schedule.
Proof.
  revert c. induction schedule as [|i schedule IH]; intros c Hinv Hnd Hfl.
  - simpl. now rewrite app_nil_r.
  - inversion Hnd as [|? ? Hnotin Hnd']; subst. simpl.
    rewrite IH; [ | now apply inv_complete | assumption | ].
    + rewrite app_assoc. f_equal.
      destruct Hinv as [_ Hbatch _ _]. unfold reply_logs.
      complete_cases c i; simpl.
      * rewrite (Hbatch _ _ Hin), Hstore, logs_app. reflexivity.
      * rewrite (Hbatch _ _ Hin), Hstore. now rewrite app_nil_r.
      * rewrite (Hbatch _ _ Hin), Hstore, logs_app, on_reject_silent.
        reflexivity.
      * destruct (nth_error batches i) as [b|] eqn:Hi;
          [|now rewrite app_nil_r].
        exfalso. apply find_index_none in Hfind. apply Hfind, Hfl.
        -- left. reflexivity.
        -- apply nth_error_Some. congruence.
    + intros k Hk Hlt. rewrite in_flight_complete, in_without. split.
      * apply Hfl; [right|]; assumption.
      * intros ->. contradiction.
Qed.

Lemma logs_run schedule :
  NoDup schedule ->
  logs (events (run' schedule)) =
  flat_map (reply_logs store tableName batchCount batches) schedule.
Proof.
  intros Hnd. unfold run. rewrite logs_fold.
  - simpl. assert (Hlogs : forall l,
                     logs (map (fun batch => Send (command batch)) l) = [])
      by (induction l; simpl; auto).
    now rewrite Hlogs.
  - apply inv_dispatch.
  - assumption.
  - intros i _ Hlt. simpl. rewrite map_fst_indexed. apply in_seq. lia.
Qed.

End ScheduleFacts.

(** ** The two sources side by side *)

Lemma without_catch_complete store tableName batchCount action items c c' i :
  without_catch c c' ->
  without_catch (complete store tableName batchCount (ts_catch action items) c i)
                (complete store tableName batchCount js_catch c' i).
Proof.
  intros ((Hfl & Hu & Ho) & Hs & Hl & Hf).
  unfold without_catch, same_progress, complete.
  rewrite <- Hfl, <- Hu, <- Ho.
  destruct (find (fun p => fst p =? i) (in_flight c)) as [[j b]|];
    [|repeat split; assumption].
  destruct (store i (BatchWriteCommand tableName b)) as [res | e]; simpl.
  - rewrite !sends_app, !logs_app, !filter_app, Hs, Hl, Hf. simpl.
    repeat split; reflexivity.
  - destruct (outcome c); simpl; [repeat split; assumption|].
    rewrite !sends_app, !logs_app, !filter_app, Hs, Hl. simpl.
    rewrite !app_nil_r. repeat split; assumption.
Qed.

Lemma without_catch_run store tableName action items schedule :
  without_catch (batchWriteItem store tableName action items schedule)
                (batchWriteItem_js store tableName action items schedule).
Proof.
  unfold batchWriteItem, batchWriteItem_js, run.
  set (batches := processedItemBatches action items).
  assert (H0 : without_catch (dispatch tableName batches)
                             (dispatch tableName batches)).
  { unfold without_catch, same_progress. simpl.
    assert (Hlogs : forall l,
              logs (map (fun batch => Send (BatchWriteCommand tableName batch)) l)
              = [])
      by (induction l; simpl; auto).
    rewrite Hlogs. simpl. repeat split; reflexivity. }
  revert H0. generalize (dispatch tableName batches) at 1 3.
  generalize (dispatch tableName batches).
  induction schedule as [|i schedule IH]; intros c' c H; simpl.
  - assumption.
  - apply IH. now apply without_catch_complete.
Qed.

(** X3: the call is rejected with the error of the first failure to
    arrive: when the replies before that of batch [i] are all responses
    and the reply to batch [i] is the error [e], both sources reject with
    [e], whatever arrives afterwards. *)
Theorem batchWriteItem_first_failure (store : Store) (tableName : string)
  (action : value) (items : list value) (pre post : list nat)
  (i : nat) (e : value) :
  let batches := processedItemBatches action items in
  (forall k e', In k pre -> ~ failed store tableName batches k e') ->
  failed store tableName batches i e ->
  outcome (batchWriteItem store tableName action items (pre ++ i :: post))
    = Some (Rejected e) /\
  outcome (batchWriteItem_js store tableName action items (pre ++ i :: post))
    = Some (Rejected e).
Proof.
  intros batches Hpre Hfail. split.
  - apply run_first_failure; [apply ts_catch_sends | assumption..].
  - apply run_first_failure; [apply js_catch_sends | assumption..].
Qed.

Lemma batchWriteItem_first_failure_witness :
  outcome (batchWriteItem sample_store "orders" (VStr "put") (sample_items 51)
                          ([0; 2] ++ 1 :: []))
  = Some (Rejected sample_error).
Proof.
  apply (batchWriteItem_first_failure
           sample_store "orders" (VStr "put") (sample_items 51) [0; 2] [] 1
           sample_error).
  - intros k e' Hk (b & _ & Hf). unfold sample_store in Hf.
    destruct Hk as [<- | [<- | []]]; discriminate.
  - exists (map PutRequest (map sample_item (seq 25 25))). split; reflexivity.
Defined.

(** X4: a call settles once.  When it is fulfilled or rejected after the
    replies [schedule], it stays so, with the same error, through every
    reply that arrives later; so does the call of the other source. *)
Theorem batchWriteItem_settles_once (store : Store) (tableName : string)
  (action : value) (items : list value) (schedule later : list nat)
  (o : Outcome) :
  outcome (batchWriteItem store tableName action items schedule) = Some o ->
  outcome (batchWriteItem store tableName action items (schedule ++ later))
    = Some o /\
  outcome (batchWriteItem_js store tableName action items (schedule ++ later))
    = Some o.
Proof.
  intros Ho.
  assert (Hts : outcome (batchWriteItem store tableName action items
                                        (schedule ++ later)) = Some o).
  { unfold batchWriteItem in *. rewrite run_app.
    now apply outcome_fold_settled. }
  split; [exact Hts|].
  destruct (without_catch_run store tableName action items (schedule ++ later))
    as ((_ & _ & <-) & _). exact Hts.
Qed.

Lemma batchWriteItem_settles_once_witness :
  outcome (batchWriteItem sample_store "orders" (VStr "put") (sample_items 26)
                          ([1] ++ [0]))
  = Some (Rejected sample_error).
Proof.
  apply (batchWriteItem_settles_once
           sample_store "orders" (VStr "put") (sample_items 26) [1] [0]
           (Rejected sample_error)).
  reflexivity.
Defined.

(** X5: the records of the batches appear in the log in the order in
    which the replies arrive, not in batch order: when each reply arrives
    once, the log of [js/ddb.js] is the records of the responses in
    schedule order, and so is the log of [ts/ddb.ts] apart from the record
    of its [catch] block. *)
Theorem batchWriteItem_logs_in_reply_order (store : Store) (tableName : string)
  (action : value) (items : list value) (schedule : list nat) :
  let batches := processedItemBatches action items in
  NoDup schedule ->
  logs (events (batchWriteItem_js store tableName action items schedule)) =
    flat_map (reply_logs store tableName (length batches) batches) schedule /\
  filter not_fail_log
         (logs (events (batchWriteItem store tableName action items schedule))) =
    flat_map (reply_logs store tableName (length batches) batches) schedule.
Proof.
  intros batches Hnd.
  assert (Hjs : logs (events (batchWriteItem_js store tableName action items
                                                schedule)) =
                flat_map (reply_logs store tableName (length batches) batches)
                         schedule).
  { unfold batchWriteItem_js. apply logs_run; [|reflexivity|assumption].
    apply js_catch_sends. }
  split; [exact Hjs|].
  destruct (without_catch_run store tableName action items schedule)
    as (_ & _ & -> & _). exact Hjs.
Qed.

Lemma batchWriteItem_logs_in_reply_order_witness :
  logs (events (batchWriteItem_js sample_store "orders" (VStr "put")
                                  (sample_items 51) [2; 1; 0])) =
  [ complete_log 2 3 (VObj []) [PutRequest (sample_item 50)];
    complete_log 0 3 (VObj []) (map PutRequest (sample_items 25)) ].
Proof.
  apply (batchWriteItem_logs_in_reply_order
           sample_store "orders" (VStr "put") (sample_items 51) [2; 1; 0]).
  repeat constructor; simpl; intuition discriminate.
Defined.

(** X6: the two sources differ by the [catch] block only.  For the same
    call and the same replies they send the same requests, have the same
    requests in flight and the same outcome; the log of [js/ddb.js] is the
    log of [ts/ddb.ts] without the records of the [catch] block, and holds
    no such record: there a failed batch leaves no trace in the log. *)
Theorem batchWriteItem_ts_js_agree (store : Store) (tableName : string)
  (action : value) (items : list value) (schedule : list nat) :
  let ts := batchWriteItem store tableName action items schedule in
  let js := batchWriteItem_js store tableName action items schedule in
  sends (events ts) = sends (events js) /\
  in_flight ts = in_flight js /\
  outcome ts = outcome js /\
  filter not_fail_log (logs (events ts)) = logs (events js) /\
  filter is_fail_log (logs (events js)) = [].
Proof.
  intros ts js.
  destruct (without_catch_run store tableName action items schedule)
    as ((Hfl & _ & Ho) & Hs & Hl & Hf).
  repeat split; assumption.
Qed.

(** ** Reading the requests back *)

Lemma items_of_BatchWriteCommand tableName action batch :
  items_of_command tableName
    (BatchWriteCommand tableName
       (map (if JS.strict_eq_str action "put" then PutRequest else DeleteRequest)
            batch)) = batch.
Proof.
  unfold items_of_command, BatchWriteCommand. simpl.
  rewrite String.eqb_refl, map_map.
  rewrite <- (map_id batch) at 2. apply map_ext.
  intros item. now destruct (JS.strict_eq_str action "put").
Qed.

Lemma flat_map_concat_map {A B C} (f : A -> B) (g : B -> list C) (l : list A) :
  flat_map g (map f l) = flat_map (fun x => g (f x)) l.
Proof. induction l as [|x l IH]; simpl; [reflexivity | now rewrite IH]. Qed.

Lemma items_of_commands tableName action (batches : list (list value)) :
  flat_map (items_of_command tableName)
    (map (BatchWriteCommand tableName)
       (map (map (if JS.strict_eq_str action "put"
                  then PutRequest else DeleteRequest)) batches))
  = concat batches.
Proof.
  induction batches as [|batch batches IH]; simpl; [reflexivity|].
  now rewrite items_of_BatchWriteCommand, IH.
Qed.

Lemma splitEvery_loop_map {A B} (f : A -> B) n (xs : list A) idx :
  splitEvery_loop n (map f xs) idx = map (map f) (splitEvery_loop n xs idx).
Proof.
  funelim (splitEvery_loop n xs idx).
  - rewrite splitEvery_loop_eq, length_map.
    destruct (lt_dec idx (length xs)); [|contradiction].
    simpl. rewrite H. f_equal.
    unfold JS.slice. now rewrite skipn_map, firstn_map.
  - rewrite splitEvery_loop_done by (rewrite length_map; lia). reflexivity.
Qed.

(** X17: the requests of a call, read back, give the items of the call:
    every item is written (or deleted) by exactly one request, unchanged
    and in the order of the input, in both sources and whatever the store
    replies. *)
Theorem batchWriteItem_items_round_trip (store : Store) (tableName : string)
  (action : value) (items : list value) (schedule : list nat) :
  flat_map (items_of_command tableName)
    (sends (events (batchWriteItem store tableName action items schedule)))
  = items /\
  flat_map (items_of_command tableName)
    (sends (events (batchWriteItem_js store tableName action items schedule)))
  = items.
Proof.
  assert (H : flat_map (items_of_command tableName)
                (map (BatchWriteCommand tableName)
                     (processedItemBatches action items)) = items).
  { unfold processedItemBatches, splitEvery.
    rewrite processItems_map, splitEvery_loop_map, items_of_commands.
    apply splitEvery_loop_concat. }
  split.
  - now rewrite batchWriteItem_sends.
  - now rewrite (inv_sends _ _ _ _
                   (batchWriteItem_js_inv store tableName action items
                                          schedule)).
Qed.

(** * Further properties of [convertErrorObject] *)

Lemma error_shaped_fields (e : value) :
  error_shaped e = true ->
  JS.truthy e = true /\ JS.truthy (JS.get e "name") = true /\
  JS.truthy (JS.get e "stack") = true /\ JS.truthy (JS.get e "message") = true.
Proof.
  unfold error_shaped. intros H.
  apply andb_prop in H as [H Hm]. apply andb_prop in H as [Hn Hs].
  repeat split; try assumption.
  destruct e; try discriminate; reflexivity.
Qed.

Lemma convertErrorObject_shaped (e : value) :
  error_shaped e = true ->
  convertErrorObject e =
  {| logger := VObj [ ("name", JS.get e "name");
                      ("message", JS.get e "message");
                      ("stack", JS.get e "stack") ];
     response := VObj [ ("name", JS.get e "name");
                        ("message", JS.get e "message") ] |}.
Proof.
  intros H. apply error_shaped_fields in H as (Ht & Hn & Hs & Hm).
  unfold convertErrorObject, JS.or. now rewrite Ht, Hn, Hs, Hm.
Qed.

Lemma convertErrorObject_unshaped (e : value) :
  error_shaped e = false ->
  convertErrorObject e = {| logger := e; response := e |}.
Proof.
  unfold error_shaped, convertErrorObject. intros H.
  rewrite <- !andb_assoc in *. now rewrite H, andb_false_r.
Qed.

(** X7: converting twice changes nothing.  The logger projection of an
    error converts to the same two projections as the error itself, and
    the response projection converts to itself in both projections. *)
Theorem convertErrorObject_idempotent (errorObject : value) :
  convertErrorObject (logger (convertErrorObject errorObject)) =
    convertErrorObject errorObject /\
  logger (convertErrorObject (response (convertErrorObject errorObject))) =
    response (convertErrorObject errorObject) /\
  response (convertErrorObject (response (convertErrorObject errorObject))) =
    response (convertErrorObject errorObject).
Proof.
  destruct (error_shaped errorObject) eqn:Hshape.
  - pose proof (error_shaped_fields _ Hshape) as (_ & Hn & Hs & Hm).
    rewrite (convertErrorObject_shaped _ Hshape). simpl.
    assert (Hr : error_shaped (VObj [ ("name", JS.get errorObject "name");
                                      ("message", JS.get errorObject "message") ])
                 = false)
      by (unfold error_shaped; simpl; now rewrite andb_false_r).
    split; [|split].
    + rewrite convertErrorObject_shaped; [reflexivity|].
      unfold error_shaped. simpl. now rewrite Hn, Hs, Hm.
    + now rewrite (convertErrorObject_unshaped _ Hr).
    + now rewrite (convertErrorObject_unshaped _ Hr).
  - rewrite (convertErrorObject_unshaped _ Hshape). simpl.
    rewrite (convertErrorObject_unshaped _ Hshape). auto.
Qed.

(** X8: the stack is kept out of the response projection only for an
    error that also has a truthy name and message.  The response
    projection has a truthy [stack] exactly when the value has one and
    lacks a truthy [name] or [message] (an error with an empty message,
    for one); the logger projection always keeps the three fields. *)
Theorem convertErrorObject_stack_exposure (errorObject : value) :
  JS.truthy (JS.get (response (convertErrorObject errorObject)) "stack") =
    JS.truthy (JS.get errorObject "stack") && negb (error_shaped errorObject) /\
  JS.get (logger (convertErrorObject errorObject)) "name" =
    JS.get errorObject "name" /\
  JS.get (logger (convertErrorObject errorObject)) "message" =
    JS.get errorObject "message" /\
  JS.get (logger (convertErrorObject errorObject)) "stack" =
    JS.get errorObject "stack".
Proof.
  destruct (error_shaped errorObject) eqn:Hshape.
  - rewrite (convertErrorObject_shaped _ Hshape). simpl.
    now rewrite andb_false_r.
  - rewrite (convertErrorObject_unshaped _ Hshape). simpl.
    now rewrite andb_true_r.
Qed.

(** An error with an empty message reaches the response with its stack. *)
Example convertErrorObject_empty_message :
  response (convertErrorObject
              (VObj [ ("name", VStr "Error"); ("message", VStr "");
                      ("stack", VStr "Error at handler") ])) =
  VObj [ ("name", VStr "Error"); ("message", VStr "");
         ("stack", VStr "Error at handler") ].
Proof. reflexivity. Qed.

(** * The single-request functions *)

(** X9: each of the eight functions of [ddb.ts] sends one command, with
    the input as it was given, and hands the reply on as it is: the
    response is returned, an error is thrown again.  A response is logged
    in one record with the input and the response; an error is logged, in
    one record with the input, [actionFor] and the logger projection of
    the error, by the five functions that have a [catch] block, and not
    at all by [queryItems], [executeStmt] and [batchExecuteStmt]. *)
Theorem ddb_wrapper_contract (w : Wrapper) (send : Client)
  (input actionFor : value) :
  let c := call_ts w send input actionFor in
  sent (effects c) = [command_of w input] /\
  result c = send (command_of w input) /\
  match send (command_of w input) with
  | inl res =>
      exists record,
        logged (effects c) = [record] /\
        JS.get record "input" = input /\
        JS.get record "command_response" = res
  | inr e =>
      if has_catch w
      then exists record,
             logged (effects c) = [record] /\
             JS.get record "input" = input /\
             JS.get record "actionFor" = actionFor /\
             JS.get record "error" = logger (convertErrorObject e)
      else logged (effects c) = []
  end.
Proof.
  destruct w; cbn [call_ts command_of has_catch];
    unfold DdbTs.putItem, DdbTs.getItem, DdbTs.updateItem, DdbTs.deleteItem,
           DdbTs.scanTable, DdbTs.queryItems, DdbTs.executeStmt,
           DdbTs.batchExecuteStmt, tried, awaited;
    match goal with |- context [send ?c] => destruct (send c) as [res | e] end;
    cbn [effects result sent logged flat_map app];
    repeat split; try (eexists; repeat split; reflexivity).
Qed.

(** X10: the functions of [ddb.js] send the same command and return or
    throw the same as those of [ddb.ts]; for a response they log the same
    record, for an error they log nothing. *)
Theorem ddb_wrapper_ts_js (w : Wrapper) (send : Client)
  (input actionFor : value) :
  let ts := call_ts w send input actionFor in
  let js := call_js w send input in
  sent (effects js) = sent (effects ts) /\
  result js = result ts /\
  match send (command_of w input) with
  | inl _ => effects js = effects ts
  | inr _ => logged (effects js) = []
  end.
Proof.
  destruct w; cbn [call_ts call_js command_of];
    unfold DdbTs.putItem, DdbTs.getItem, DdbTs.updateItem, DdbTs.deleteItem,
           DdbTs.scanTable, DdbTs.queryItems, DdbTs.executeStmt,
           DdbTs.batchExecuteStmt,
           DdbJs.putItem, DdbJs.getItem, DdbJs.updateItem, DdbJs.deleteItem,
           DdbJs.scanTable, DdbJs.queryItems, DdbJs.executeStmt,
           DdbJs.batchExecuteStmt, tried, awaited;
    match goal with |- context [send ?c] => destruct (send c) as [res | e] end;
    repeat split.
Qed.

(** * The response helpers *)

Lemma error_shaped_object (e : value) :
  error_shaped e = true -> exists fields, e = VObj fields.
Proof.
  unfold error_shaped. destruct e; try discriminate. eauto.
Qed.

Lemma constructedError_response (errorObject : value) :
  ResponseJs.constructedError errorObject =
  response (convertErrorObject errorObject).
Proof.
  unfold ResponseJs.constructedError, convertErrorObject.
  now destruct (JS.truthy errorObject && JS.truthy (JS.get errorObject "name")
                && JS.truthy (JS.get errorObject "stack")
                && JS.truthy (JS.get errorObject "message")).
Qed.

Lemma response_of_shaped (e e' : value) :
  error_shaped e = true -> error_shaped e' = true ->
  JS.get e "name" = JS.get e' "name" ->
  JS.get e "message" = JS.get e' "message" ->
  response (convertErrorObject e) = response (convertErrorObject e').
Proof.
  intros He He' Hn Hm.
  rewrite (convertErrorObject_shaped _ He), (convertErrorObject_shaped _ He').
  simpl. now rewrite Hn, Hm.
Qed.

Lemma LoggerJs_errResponse_constructedError (JSON_stringify : value -> string)
  (st : LoggerJs.State) (code message errorObject : value) :
  LoggerJs.errResponse JSON_stringify st code message errorObject =
  ([LoggerJs.Log (LoggerJs.logger st) "error" message
      (ResponseJs.constructedError (default_to (VObj []) errorObject))],
   {| statusCode := code;
      headers := cors_headers;
      body := JSON_stringify
                (VObj [ ("request_id", LoggerJs.requestId st);
                        ("status_code", code);
                        ("message", message);
                        ("error",
                         ResponseJs.constructedError
                           (default_to (VObj []) errorObject)) ]) |}).
Proof. reflexivity. Qed.

(** X11: the body of the TypeScript [okResponse] does not depend on the
    [statusCode] argument: it is the body of a 200 response whatever
    status the response itself carries, which is the argument (200 when
    there is none).  What is logged does not depend on it either. *)
Theorem okResponse_body_ignores_statusCode (JSON_stringify : value -> string)
  (requestId message data code : value) :
  let r := ResponseTs.okResponse JSON_stringify requestId message data code in
  let r200 := ResponseTs.okResponse JSON_stringify requestId message data
                                    (VNum 200) in
  body (snd r) = body (snd r200) /\
  fst r = fst r200 /\
  statusCode (snd r) = default_to (VNum 200) code /\
  statusCode (snd r200) = VNum 200.
Proof. repeat split. Qed.

(** X12: no [errResponse] lets the stack of an error reach the client.
    For two errors with truthy name, stack and message that have the same
    name and the same message, each of the three functions returns the
    same response; the one of the logger module also logs the same. *)
Theorem errResponse_ignores_stack (JSON_stringify : value -> string)
  (st : LoggerJs.State) (requestId statusCode message context e e' : value) :
  error_shaped e = true -> error_shaped e' = true ->
  JS.get e "name" = JS.get e' "name" ->
  JS.get e "message" = JS.get e' "message" ->
  snd (ResponseTs.errResponse JSON_stringify requestId statusCode message e) =
    snd (ResponseTs.errResponse JSON_stringify requestId statusCode message e') /\
  snd (ResponseJs.errResponse JSON_stringify statusCode message context e) =
    snd (ResponseJs.errResponse JSON_stringify statusCode message context e') /\
  LoggerJs.errResponse JSON_stringify st statusCode message e =
    LoggerJs.errResponse JSON_stringify st statusCode message e'.
Proof.
  intros He He' Hn Hm.
  pose proof (response_of_shaped e e' He He' Hn Hm) as Hr.
  destruct (error_shaped_object _ He) as [fs ->].
  destruct (error_shaped_object _ He') as [fs' ->].
  split; [|split].
  - unfold ResponseTs.errResponse. simpl. now rewrite Hr.
  - unfold ResponseJs.errResponse. cbn [snd default_to].
    now rewrite !constructedError_response, Hr.
  - rewrite !LoggerJs_errResponse_constructedError. cbn [default_to].
    now rewrite !constructedError_response, Hr.
Qed.

Lemma errResponse_ignores_stack_witness :
  snd (ResponseJs.errResponse sample_stringify (VNum 500) (VStr "Failed")
         (VStr "req-1") sample_error) =
  snd (ResponseJs.errResponse sample_stringify (VNum 500) (VStr "Failed")
         (VStr "req-1")
         (VObj [ ("name", VStr "ProvisionedThroughputExceededException");
                 ("message", VStr "Rate exceeded");
                 ("stack", VStr "at retry");
                 ("code", VNum 400) ])).
Proof.
  apply (errResponse_ignores_stack
           sample_stringify LoggerJs.initial (VStr "req-1") (VNum 500)
           (VStr "Failed") (VStr "req-1") sample_error
           (VObj [ ("name", VStr "ProvisionedThroughputExceededException");
                   ("message", VStr "Rate exceeded");
                   ("stack", VStr "at retry");
                   ("code", VNum 400) ]));
    reflexivity.
Defined.

(** X13: the request id of [js/response.js] is null for a falsy context
    and a truthy value otherwise, so never undefined: the id of the Lambda
    context when it has a truthy one, else the context itself, which is
    how a caller passes an id of its own. *)
Theorem rid_of_context (context : value) :
  (JS.truthy context = false -> ResponseJs.rid context = VNull) /\
  (JS.truthy context = true -> JS.truthy (ResponseJs.rid context) = true) /\
  (JS.truthy (JS.get context "awsRequestId") = true ->
   ResponseJs.rid context = JS.get context "awsRequestId") /\
  (JS.truthy context = true ->
   JS.truthy (JS.get context "awsRequestId") = false ->
   ResponseJs.rid context = context).
Proof.
  unfold ResponseJs.rid. repeat split.
  - now intros ->.
  - intros H. rewrite H.
    destruct (JS.truthy (JS.get context "awsRequestId")) eqn:E; assumption.
  - intros H. rewrite H.
    destruct context; try discriminate. reflexivity.
  - now intros -> ->.
Qed.

Lemma rid_of_context_witness :
  ResponseJs.rid (VStr "") = VNull /\
  ResponseJs.rid (VObj [ ("awsRequestId", VStr "c6af9ac6") ]) = VStr "c6af9ac6" /\
  ResponseJs.rid (VStr "my-id") = VStr "my-id".
Proof.
  split; [|split].
  - apply (proj1 (rid_of_context (VStr ""))). reflexivity.
  - apply (proj1 (proj2 (proj2
             (rid_of_context (VObj [ ("awsRequestId", VStr "c6af9ac6") ]))))).
    reflexivity.
  - apply (proj2 (proj2 (proj2 (rid_of_context (VStr "my-id")))));
      reflexivity.
Defined.

(** X14: the three [errResponse] agree on the error they return.  The
    duck typing written out in the two JavaScript modules yields the
    response projection of [convertErrorObject], which the TypeScript
    module calls; the logger module logs that projection too. *)
Theorem errResponse_error_is_response_projection
  (JSON_stringify : value -> string) (st : LoggerJs.State)
  (requestId statusCode message context errorObject : value) :
  let eo := default_to (VObj []) errorObject in
  let error := response (convertErrorObject eo) in
  body (snd (ResponseTs.errResponse JSON_stringify requestId statusCode message
                                    errorObject)) =
    JSON_stringify (VObj [ ("requestId", requestId);
                           ("statusCode", statusCode);
                           ("message", message);
                           ("error", error) ]) /\
  body (snd (ResponseJs.errResponse JSON_stringify statusCode message context
                                    errorObject)) =
    JSON_stringify (VObj [ ("request_id",
                            ResponseJs.rid (default_to VNull context));
                           ("status_code", statusCode);
                           ("message", message);
                           ("error", error) ]) /\
  LoggerJs.errResponse JSON_stringify st statusCode message errorObject =
    ([LoggerJs.Log (LoggerJs.logger st) "error" message error],
     {| statusCode := statusCode;
        headers := cors_headers;
        body := JSON_stringify
                  (VObj [ ("request_id", LoggerJs.requestId st);
                          ("status_code", statusCode);
                          ("message", message);
                          ("error", error) ]) |}).
Proof.
  intros eo error. split; [reflexivity|]. split.
  - unfold ResponseJs.errResponse. cbn [snd body].
    now rewrite constructedError_response.
  - rewrite LoggerJs_errResponse_constructedError.
    now rewrite constructedError_response.
Qed.

(** ** The logger module *)

Section LoggerModule.
Variable JSON_stringify : value -> string.
Variable LOG_LEVEL : value.

#[local] Abbreviation invoke := (LoggerJs.invoke JSON_stringify LOG_LEVEL).
#[local] Abbreviation invoke_all :=
  (LoggerJs.invoke_all JSON_stringify LOG_LEVEL).

#[local] Abbreviation states_from :=
  (LoggerJs.states_from JSON_stringify LOG_LEVEL).
#[local] Abbreviation request_id_consistent := LoggerJs.request_id_consistent.

Lemma invoke_all_state calls :
  fst (invoke_all calls) = states_from LoggerJs.initial calls.
Proof.
  unfold LoggerJs.invoke_all, LoggerJs.states_from.
  generalize (@nil LoggerJs.LogCall). generalize LoggerJs.initial.
  induction calls as [|call calls IH]; intros st out; simpl.
  - reflexivity.
  - destruct (invoke st call) as [st' out'] eqn:E. simpl. apply IH.
Qed.

Lemma invoke_keeps_state st call :
  LoggerJs.is_initializeContext call = false -> fst (invoke st call) = st.
Proof. destruct call; simpl; intros H; [discriminate | reflexivity..]. Qed.

Lemma states_from_keeps st calls :
  forallb (fun call => negb (LoggerJs.is_initializeContext call)) calls = true ->
  states_from st calls = st.
Proof.
  induction calls as [|call calls IH]; simpl; intros H; [reflexivity|].
  apply andb_prop in H as [Hc Hcs]. apply negb_true_iff in Hc.
  unfold LoggerJs.states_from in *. simpl.
  rewrite (invoke_keeps_state _ _ Hc). now apply IH.
Qed.

Lemma request_id_consistent_invoke st call :
  request_id_consistent st -> request_id_consistent (fst (invoke st call)).
Proof.
  intros H. destruct call; simpl; try assumption.
  unfold LoggerJs.request_id_consistent, JS.or. simpl. split; [reflexivity|].
  destruct (JS.truthy (JS.get (default_to VNull context) "awsRequestId"))
    eqn:E; auto.
Qed.

Lemma request_id_consistent_from st calls :
  request_id_consistent st -> request_id_consistent (states_from st calls).
Proof.
  revert st. induction calls as [|call calls IH]; intros st H; simpl.
  - assumption.
  - apply IH. now apply request_id_consistent_invoke.
Qed.

End LoggerModule.

(** X15: however the logger module is used, the request id it puts in
    responses is the one in the default metadata of the logger it logs
    with (none for the default logger of winston), and it is null or a
    truthy value, never undefined. *)
Theorem logger_request_id_consistent (JSON_stringify : value -> string)
  (LOG_LEVEL : value) (calls : list LoggerJs.Invocation) :
  let st := fst (LoggerJs.invoke_all JSON_stringify LOG_LEVEL calls) in
  LoggerJs.logged_request_id (LoggerJs.logger st) = LoggerJs.requestId st /\
  (LoggerJs.requestId st = VNull \/ JS.truthy (LoggerJs.requestId st) = true) /\
  forall message data,
    fst (LoggerJs.okResponse JSON_stringify st message data) =
      [LoggerJs.Log (LoggerJs.logger st) "info" message
                    (default_to (VObj []) data)] /\
    body (snd (LoggerJs.okResponse JSON_stringify st message data)) =
      JSON_stringify
        (VObj [ ("request_id",
                 LoggerJs.logged_request_id (LoggerJs.logger st));
                ("status_code", VNum 200);
                ("message", message);
                ("data", default_to (VObj []) data) ]).
Proof.
  intros st.
  assert (H : LoggerJs.request_id_consistent st).
  { unfold st. rewrite invoke_all_state.
    apply request_id_consistent_from. split; [reflexivity | now left]. }
  destruct H as [Hid Hnull]. split; [assumption|]. split; [assumption|].
  intros message data. split; [reflexivity|].
  unfold LoggerJs.okResponse. cbn [snd body]. now rewrite Hid.
Qed.

(** X16: only [initializeContext] sets the request id, and the last call
    of it decides.  Until it is called every response carries a null
    request id and is logged with the default logger; after a call of it
    with [context], and whatever else is called later, the request id is
    the truthy [awsRequestId] of [context], or null. *)
Theorem logger_request_id_from_context (JSON_stringify : value -> string)
  (LOG_LEVEL : value) (before later : list LoggerJs.Invocation)
  (now event context : value) :
  forallb (fun call => negb (LoggerJs.is_initializeContext call)) later = true ->
  fst (LoggerJs.invoke_all JSON_stringify LOG_LEVEL later) = LoggerJs.initial /\
  LoggerJs.requestId
    (fst (LoggerJs.invoke_all JSON_stringify LOG_LEVEL
            (before ++ LoggerJs.InitializeContext now event context :: later))) =
    JS.or (JS.get (default_to VNull context) "awsRequestId") VNull.
Proof.
  intros Hlater. rewrite !invoke_all_state. split.
  - now apply states_from_keeps.
  - unfold LoggerJs.states_from. rewrite fold_left_app. simpl.
    match goal with
    | |- LoggerJs.requestId (fold_left ?f later ?st') = _ =>
        change (fold_left f later st')
          with (LoggerJs.states_from JSON_stringify LOG_LEVEL st' later)
    end.
    now rewrite states_from_keeps.
Qed.

Lemma logger_request_id_from_context_witness :
  LoggerJs.requestId
    (fst (LoggerJs.invoke_all sample_stringify VUndefined
            ([LoggerJs.OkResponse (VStr "early") VUndefined]
             ++ LoggerJs.InitializeContext
                  (VNum 1700000000000) VNull
                  (VObj [ ("awsRequestId", VStr "c6af9ac6");
                          ("functionName", VStr "orders") ])
             :: [LoggerJs.ErrResponse (VNum 500) (VStr "Failed") sample_error])))
  = VStr "c6af9ac6".
Proof.
  apply (logger_request_id_from_context
           sample_stringify VUndefined
           [LoggerJs.OkResponse (VStr "early") VUndefined]
           [LoggerJs.ErrResponse (VNum 500) (VStr "Failed") sample_error]
           (VNum 1700000000000) VNull
           (VObj [ ("awsRequestId", VStr "c6af9ac6");
                   ("functionName", VStr "orders") ])).
  reflexivity.
Defined.
